(** * A persistent treap with split, join and set algebra

    Shallow embedding of [persist-treap.cpp] (the class template
    [PersistTreap<Tkey, Tval>]) and the properties of its operations.

    Keys and priorities are the [int]s of the driver; they are only ever
    compared ([==], [<]), never computed with, so they are modelled as [Z]
    without wrap-around.  The value type stays abstract. *)

From Stdlib Require Import ZArith List Lia Bool Sorted Permutation.
From Equations Require Import Equations.
Import ListNotations.

Local Open Scope Z_scope.

Section PersistTreap.

Context {Tval : Type}.

(** * The program *)

(** ** Data model *)

(** [shared_ptr<Node>]: either the null pointer or a node with the fields
    [key], [val], [p], [left], [right] of [struct Node].  Nodes are never
    written after they are published, so a pointer is modelled by the tree
    it points to. *)
Inductive Node : Type :=
| Nil : Node
| Nd (key : Z) (val : Tval) (p : Z) (left : Node) (right : Node).

Fixpoint size (v : Node) : nat :=
  match v with
  | Nil => 0
  | Nd _ _ _ l r => S (size l + size r)
  end.

(** Components of the tuple returned by the split functions. *)
Definition less (s : Node * Node * Node) : Node := fst (fst s).
Definition greater (s : Node * Node * Node) : Node := snd (fst s).
Definition matched (s : Node * Node * Node) : Node := snd s.

(** ** Split *)

(** [split_rec]: the recursive formulation. *)
Fixpoint split_rec (v : Node) (key : Z) : Node * Node * Node :=
  match v with
  | Nil => (Nil, Nil, Nil)
  | Nd k x p l r =>
      if k =? key then (l, r, v)
      else if key <? k then
        let '(r1, r2, a) := split_rec l key in
        (r1, Nd k x p r2 r, a)
      else
        let '(r1, r2, a) := split_rec r key in
        (Nd k x p l r1, r2, a)
  end.

(** A clone made by [split_loop] whose one child is still the hole: the
    fields copied from [v] and the child that was kept. *)
Record Clone : Type := mkClone
  { ckey : Z; cval : Tval; cp : Z; ckept : Node }.

(** [result1] as seen through [t1]: the clones written so far, outermost
    first, each with its [left] kept and its [right] being the slot the next
    write goes to.  [fill_right path x] is the tree once [x] is stored in
    the innermost slot. *)
Definition fill_right (path : list Clone) (x : Node) : Node :=
  fold_right (fun c hole => Nd (ckey c) (cval c) (cp c) (ckept c) hole) x path.

(** [result2] as seen through [t2]: each clone keeps its [right], the slot
    is its [left]. *)
Definition fill_left (path : list Clone) (x : Node) : Node :=
  fold_right (fun c hole => Nd (ckey c) (cval c) (cp c) hole (ckept c)) x path.

(** The [while (v)] loop of [split_loop].  A slot that is never written
    stays null. *)
Fixpoint split_loop_iter (v : Node) (key : Z) (t1 t2 : list Clone)
  : Node * Node * Node :=
  match v with
  | Nil => (fill_right t1 Nil, fill_left t2 Nil, Nil)
  | Nd k x p l r =>
      if k =? key then (fill_right t1 l, fill_left t2 r, v)
      else if key <? k then
        split_loop_iter l key t1 (t2 ++ [mkClone k x p r])
      else
        split_loop_iter r key (t1 ++ [mkClone k x p l]) t2
  end.

Definition split_loop (v : Node) (key : Z) : Node * Node * Node :=
  split_loop_iter v key [] [].

(** [split] selects the loop version. *)
Definition split (v : Node) (key : Z) : Node * Node * Node :=
  split_loop v key.

(** *** The loop computes what the recursion computes, and the parts of a
    split are no larger than the tree (the helpers below recurse on them) *)

Lemma fill_right_snoc path c x :
  fill_right (path ++ [c]) x =
  fill_right path (Nd (ckey c) (cval c) (cp c) (ckept c) x).
Proof. unfold fill_right. now rewrite fold_right_app. Qed.

Lemma fill_left_snoc path c x :
  fill_left (path ++ [c]) x =
  fill_left path (Nd (ckey c) (cval c) (cp c) x (ckept c)).
Proof. unfold fill_left. now rewrite fold_right_app. Qed.

Lemma split_loop_iter_rec v key : forall t1 t2,
  split_loop_iter v key t1 t2 =
  (fill_right t1 (less (split_rec v key)),
   fill_left t2 (greater (split_rec v key)),
   matched (split_rec v key)).
Proof.
  induction v as [|k x p l IHl r IHr]; intros t1 t2; cbn.
  - reflexivity.
  - destruct (k =? key); [reflexivity|].
    destruct (key <? k).
    + rewrite IHl, fill_left_snoc.
      destruct (split_rec l key) as [[r1 r2] a]. reflexivity.
    + rewrite IHr, fill_right_snoc.
      destruct (split_rec r key) as [[r1 r2] a]. reflexivity.
Qed.

Lemma split_is_split_rec v key : split v key = split_rec v key.
Proof.
  unfold split, split_loop. rewrite split_loop_iter_rec. cbn.
  now destruct (split_rec v key) as [[r1 r2] a].
Qed.

Lemma split_rec_size v key :
  (size (less (split_rec v key)) + size (greater (split_rec v key))
   <= size v)%nat.
Proof.
  induction v as [|k x p l IHl r IHr]; cbn; [lia|].
  destruct (k =? key); [cbn; lia|].
  destruct (key <? k).
  - destruct (split_rec l key) as [[r1 r2] a]. cbn in *. lia.
  - destruct (split_rec r key) as [[r1 r2] a]. cbn in *. lia.
Qed.

Lemma split_size v key :
  (size (less (split v key)) + size (greater (split v key)) <= size v)%nat.
Proof. rewrite split_is_split_rec. apply split_rec_size. Qed.

(** ** Join *)

Equations? join (v1 v2 : Node) : Node by wf (size v1 + size v2)%nat lt :=
  join Nil v2 := v2;
  join v1 Nil := v1;
  join (Nd k1 x1 p1 l1 r1) (Nd k2 x2 p2 l2 r2) with p1 <? p2 => {
    | true := Nd k1 x1 p1 l1 (join r1 (Nd k2 x2 p2 l2 r2));
    | false := Nd k2 x2 p2 (join (Nd k1 x1 p1 l1 r1) l2) r2 }.
Proof. all: cbn; lia. Qed.

(** ** Union *)

Equations? union_helper (v1 v2 : Node) : Node
  by wf (size v1 + size v2)%nat lt :=
  union_helper Nil v2 := v2;
  union_helper v1 Nil := v1;
  union_helper (Nd k1 x1 p1 l1 r1) (Nd k2 x2 p2 l2 r2) with p1 <? p2 => {
    | true :=
        (* v1 becomes the root: split v2 around v1->key *)
        Nd k1 x1 p1
           (union_helper l1 (less (split (Nd k2 x2 p2 l2 r2) k1)))
           (union_helper r1 (greater (split (Nd k2 x2 p2 l2 r2) k1)));
    | false :=
        (* v2 becomes the root: split v1 around v2->key; a matched node of
           v1 gives the value *)
        Nd k2
           (match matched (split (Nd k1 x1 p1 l1 r1) k2) with
            | Nd _ xa _ _ _ => xa
            | Nil => x2
            end)
           p2
           (union_helper (less (split (Nd k1 x1 p1 l1 r1) k2)) l2)
           (union_helper (greater (split (Nd k1 x1 p1 l1 r1) k2)) r2) }.
Proof.
  all: match goal with
       | |- context [split ?v ?k] => pose proof (split_size v k)
       end; cbn in *; lia.
Qed.

(** ** Intersection *)

Equations? intersect_helper (v1 v2 : Node) : Node
  by wf (size v1 + size v2)%nat lt :=
  intersect_helper Nil _ := Nil;
  intersect_helper _ Nil := Nil;
  intersect_helper (Nd k1 x1 p1 l1 r1) (Nd k2 x2 p2 l2 r2) with p1 <? p2 => {
    | true :=
        (* v1 is potentially the root: split v2 around v1->key *)
        match matched (split (Nd k2 x2 p2 l2 r2) k1) with
        | Nil =>
            join (intersect_helper l1 (less (split (Nd k2 x2 p2 l2 r2) k1)))
                 (intersect_helper r1 (greater (split (Nd k2 x2 p2 l2 r2) k1)))
        | Nd _ _ _ _ _ =>
            Nd k1 x1 p1
               (intersect_helper l1 (less (split (Nd k2 x2 p2 l2 r2) k1)))
               (intersect_helper r1 (greater (split (Nd k2 x2 p2 l2 r2) k1)))
        end;
    | false :=
        (* v2 is potentially the root: split v1 around v2->key *)
        match matched (split (Nd k1 x1 p1 l1 r1) k2) with
        | Nil =>
            join (intersect_helper (less (split (Nd k1 x1 p1 l1 r1) k2)) l2)
                 (intersect_helper (greater (split (Nd k1 x1 p1 l1 r1) k2)) r2)
        | Nd _ xa _ _ _ =>
            Nd k2 xa p2
               (intersect_helper (less (split (Nd k1 x1 p1 l1 r1) k2)) l2)
               (intersect_helper (greater (split (Nd k1 x1 p1 l1 r1) k2)) r2)
        end }.
Proof.
  all: match goal with
       | |- context [split ?v ?k] => pose proof (split_size v k)
       end; cbn in *; lia.
Qed.

(** ** Difference *)

Equations? difference_helper (v1 v2 : Node) : Node
  by wf (size v1 + size v2)%nat lt :=
  difference_helper Nil _ := Nil;
  difference_helper v1 Nil := v1;
  difference_helper (Nd k1 x1 p1 l1 r1) (Nd k2 x2 p2 l2 r2) :=
    (* v1 is always the pivot: split v2 around v1->key *)
    match matched (split (Nd k2 x2 p2 l2 r2) k1) with
    | Nil =>
        Nd k1 x1 p1
           (difference_helper l1 (less (split (Nd k2 x2 p2 l2 r2) k1)))
           (difference_helper r1 (greater (split (Nd k2 x2 p2 l2 r2) k1)))
    | Nd _ _ _ _ _ =>
        join (difference_helper l1 (less (split (Nd k2 x2 p2 l2 r2) k1)))
             (difference_helper r1 (greater (split (Nd k2 x2 p2 l2 r2) k1)))
    end.
Proof.
  all: match goal with
       | |- context [split ?v ?k] => pose proof (split_size v k)
       end; cbn in *; lia.
Qed.

(** ** The public operations *)

(** [PersistTreap] wraps one root pointer. *)
Record PersistTreap : Type := mkTreap { root : Node }.

(** [PersistTreap()]: the empty treap. *)
Definition empty : PersistTreap := mkTreap Nil.

(** [PersistTreap(key, val)]: a single node; [prio] is what [rand()]
    returned. *)
Definition singleton (key : Z) (val : Tval) (prio : Z) : PersistTreap :=
  mkTreap (Nd key val prio Nil Nil).

Definition treap_union (treap1 treap2 : PersistTreap) : PersistTreap :=
  mkTreap (union_helper (root treap1) (root treap2)).

Definition intersection (treap1 treap2 : PersistTreap) : PersistTreap :=
  mkTreap (intersect_helper (root treap1) (root treap2)).

Definition difference (treap1 treap2 : PersistTreap) : PersistTreap :=
  mkTreap (difference_helper (root treap1) (root treap2)).

(** [insert]: the union of [PersistTreap(key, val)] with this treap, the
    new node on the left. *)
Definition insert (this : PersistTreap) (key : Z) (val : Tval) (prio : Z)
  : PersistTreap :=
  treap_union (singleton key val prio) this.

(** [remove]: the difference of this treap and [PersistTreap(key, NULL)];
    [null] is the [Tval] that [NULL] converts to. *)
Definition remove (null : Tval) (this : PersistTreap) (key : Z) (prio : Z)
  : PersistTreap :=
  difference this (singleton key null prio).

(** ** The recursions with an explicit bound on their depth *)

(** The three helpers again, each call spending one unit of [fuel]; [None]
    when the fuel runs out before the recursion ends. *)
Fixpoint union_fuel (fuel : nat) (v1 v2 : Node) : option Node :=
  match fuel with
  | O => None
  | S fuel =>
      match v1, v2 with
      | Nil, _ => Some v2
      | _, Nil => Some v1
      | Nd k1 x1 p1 l1 r1, Nd k2 x2 p2 l2 r2 =>
          if p1 <? p2 then
            let '(t1, t2, a) := split v2 k1 in
            match union_fuel fuel l1 t1, union_fuel fuel r1 t2 with
            | Some wl, Some wr => Some (Nd k1 x1 p1 wl wr)
            | _, _ => None
            end
          else
            let '(t1, t2, a) := split v1 k2 in
            match union_fuel fuel t1 l2, union_fuel fuel t2 r2 with
            | Some wl, Some wr =>
                Some (Nd k2 (match a with Nd _ xa _ _ _ => xa | Nil => x2 end)
                         p2 wl wr)
            | _, _ => None
            end
      end
  end.

Fixpoint intersect_fuel (fuel : nat) (v1 v2 : Node) : option Node :=
  match fuel with
  | O => None
  | S fuel =>
      match v1, v2 with
      | Nil, _ => Some Nil
      | _, Nil => Some Nil
      | Nd k1 x1 p1 l1 r1, Nd k2 x2 p2 l2 r2 =>
          if p1 <? p2 then
            let '(r1', r2', a) := split v2 k1 in
            match intersect_fuel fuel l1 r1', intersect_fuel fuel r1 r2' with
            | Some lft, Some rgt =>
                match a with
                | Nil => Some (join lft rgt)
                | Nd _ _ _ _ _ => Some (Nd k1 x1 p1 lft rgt)
                end
            | _, _ => None
            end
          else
            let '(r1', r2', a) := split v1 k2 in
            match intersect_fuel fuel r1' l2, intersect_fuel fuel r2' r2 with
            | Some lft, Some rgt =>
                match a with
                | Nil => Some (join lft rgt)
                | Nd _ xa _ _ _ => Some (Nd k2 xa p2 lft rgt)
                end
            | _, _ => None
            end
      end
  end.

Fixpoint difference_fuel (fuel : nat) (v1 v2 : Node) : option Node :=
  match fuel with
  | O => None
  | S fuel =>
      match v1, v2 with
      | Nil, _ => Some Nil
      | _, Nil => Some v1
      | Nd k1 x1 p1 l1 r1, Nd k2 x2 p2 l2 r2 =>
          let '(r1', r2', a) := split v2 k1 in
          match difference_fuel fuel l1 r1', difference_fuel fuel r1 r2' with
          | Some lft, Some rgt =>
              match a with
              | Nil => Some (Nd k1 x1 p1 lft rgt)
              | Nd _ _ _ _ _ => Some (join lft rgt)
              end
          | _, _ => None
          end
      end
  end.

(** * Observations and invariants *)

(** ** What is observed of a treap *)

(** Modelled from the spec: the ordered traversal of the dictionary, an
    in-order walk that yields the (key, value) pairs; the source only prints
    the nodes in pre-order ([debug_print_helper]). *)
Fixpoint traverse (v : Node) : list (Z * Tval) :=
  match v with
  | Nil => []
  | Nd k x _ l r => traverse l ++ (k, x) :: traverse r
  end.

Definition keys (v : Node) : list Z := map fst (traverse v).

(** Membership of a key, decided on the traversal. *)
Definition mem (k : Z) (v : Node) : bool := existsb (Z.eqb k) (keys v).

(** The pair a matched node contributes to a traversal. *)
Definition entry_of (a : Node) : list (Z * Tval) :=
  match a with
  | Nil => []
  | Nd k x _ _ _ => [(k, x)]
  end.

(** [subnode a v]: [a] is a node reachable from [v] (with all below it). *)
Fixpoint subnode (a v : Node) : Prop :=
  a = v \/
  match v with
  | Nil => False
  | Nd _ _ _ l r => subnode a l \/ subnode a r
  end.

(** ** The two invariants *)

Fixpoint all_keys (P : Z -> Prop) (v : Node) : Prop :=
  match v with
  | Nil => True
  | Nd k _ _ l r => P k /\ all_keys P l /\ all_keys P r
  end.

(** Search-tree order at every reachable node. *)
Fixpoint bst (v : Node) : Prop :=
  match v with
  | Nil => True
  | Nd k _ _ l r =>
      all_keys (fun k' => k' < k) l /\ all_keys (fun k' => k < k') r /\
      bst l /\ bst r
  end.

(** [prio_ge q v]: a child [v] of a node of priority [q] respects the heap
    order (a null child always does). *)
Definition prio_ge (q : Z) (v : Node) : Prop :=
  match v with
  | Nil => True
  | Nd _ _ p _ _ => q <= p
  end.

(** Heap order at every reachable node: the smaller priority is on top. *)
Fixpoint heap (v : Node) : Prop :=
  match v with
  | Nil => True
  | Nd _ _ p l r => prio_ge p l /\ prio_ge p r /\ heap l /\ heap r
  end.

Definition valid (v : Node) : Prop := bst v /\ heap v.

(** The precondition of [join]: the keys of [v1] are below those of [v2]. *)
Definition keys_before (v1 v2 : Node) : Prop :=
  all_keys (fun k1 => all_keys (fun k2 => k1 < k2) v2) v1.

Fixpoint all_prios (P : Z -> Prop) (v : Node) : Prop :=
  match v with
  | Nil => True
  | Nd _ _ p l r => P p /\ all_prios P l /\ all_prios P r
  end.

(** Same shape and same keys; values and priorities may differ. *)
Fixpoint same_keys (v v' : Node) : Prop :=
  match v, v' with
  | Nil, Nil => True
  | Nd k _ _ l r, Nd k' _ _ l' r' => k = k' /\ same_keys l l' /\ same_keys r r'
  | _, _ => False
  end.

(** ** Dictionaries: what is observed of a [PersistTreap] *)

Definition entries (t : PersistTreap) : list (Z * Tval) := traverse (root t).
Definition treap_keys (t : PersistTreap) : list Z := keys (root t).
Definition valid_treap (t : PersistTreap) : Prop := valid (root t).

(** A valid treap with a given content. *)
Definition has_content (t : PersistTreap) (l : list (Z * Tval)) : Prop :=
  valid_treap t /\ entries t = l.

Definition root_key (v : Node) : option Z :=
  match v with
  | Nil => None
  | Nd k _ _ _ _ => Some k
  end.

Definition root_prio (v : Node) : option Z :=
  match v with
  | Nil => None
  | Nd _ _ p _ _ => Some p
  end.

(** ** Debug print *)

(** One line of [debug_print_helper]'s output: [indent] columns of padding
    (none when [indent] is 0), then [key:p:val]. *)
Record Line : Type := mkLine
  { line_indent : Z; line_key : Z; line_p : Z; line_val : Tval }.

(** [debug_print_helper]: the lines written to [cout], in order; the node,
    then its children one level deeper. *)
Fixpoint debug_print_helper (v : Node) (indent : Z) : list Line :=
  match v with
  | Nil => []
  | Nd k x p l r =>
      mkLine indent k p x ::
      debug_print_helper l (indent + 4) ++ debug_print_helper r (indent + 4)
  end.

Definition debug_print (this : PersistTreap) : list Line :=
  debug_print_helper (root this) 0.

(** ** Lists of pairs, to say what a traversal is *)

(** Left-biased merge of two lists in ascending key order: on a key that
    both have, the pair of the first list is kept. *)
Equations? merge_entries (la lb : list (Z * Tval)) : list (Z * Tval)
  by wf (length la + length lb)%nat lt :=
  merge_entries [] lb := lb;
  merge_entries la [] := la;
  merge_entries ((ka, xa) :: la') ((kb, xb) :: lb') with Z.compare ka kb => {
    | Lt := (ka, xa) :: merge_entries la' ((kb, xb) :: lb');
    | Gt := (kb, xb) :: merge_entries ((ka, xa) :: la') lb';
    | Eq := (ka, xa) :: merge_entries la' lb' }.
Proof. all: cbn; lia. Qed.

(** * Lemmas *)

(** ** Basic facts *)

Lemma all_keys_In P v : all_keys P v <-> forall k, In k (keys v) -> P k.
Proof.
  unfold keys. induction v as [|k x p l IHl r IHr]; cbn.
  - tauto.
  - rewrite IHl, IHr. split.
    + intros (Hk & Hl & Hr) k'. rewrite map_app, in_app_iff. cbn.
      intros [H|[H|H]]; subst; auto.
    + intros H. repeat split; intros; apply H; rewrite map_app, in_app_iff;
        cbn; auto.
Qed.

Lemma all_keys_impl (P Q : Z -> Prop) v :
  (forall k, P k -> Q k) -> all_keys P v -> all_keys Q v.
Proof. rewrite !all_keys_In. auto. Qed.

Lemma keys_Nd k x p l r : keys (Nd k x p l r) = keys l ++ k :: keys r.
Proof. unfold keys. cbn. now rewrite map_app. Qed.

Lemma mem_In k v : mem k v = true <-> In k (keys v).
Proof.
  unfold mem. rewrite existsb_exists. split.
  - intros (y & Hy & E). apply Z.eqb_eq in E. now subst.
  - intros H. exists k. split; [assumption|apply Z.eqb_refl].
Qed.

Lemma mem_false k v : mem k v = false <-> ~ In k (keys v).
Proof. rewrite <- mem_In. destruct (mem k v); split; congruence. Qed.

(** A search tree is traversed in strictly ascending key order. *)
Lemma bst_sorted v : bst v -> StronglySorted Z.lt (keys v).
Proof.
  induction v as [|k x p l IHl r IHr]; cbn [bst].
  - intros _. constructor.
  - intros (Hl & Hr & Bl & Br). rewrite keys_Nd.
    rewrite all_keys_In in Hl, Hr.
    specialize (IHl Bl). specialize (IHr Br).
    clear Bl Br. induction IHl as [|a ks Ha IH Hall]; cbn.
    + constructor; [assumption|]. apply Forall_forall. auto.
    + constructor.
      * apply IH. intros k' Hk'. apply Hl. now right.
      * apply Forall_forall. intros y Hy. apply in_app_iff in Hy.
        rewrite Forall_forall in Hall.
        destruct Hy as [Hy|[Hy|Hy]]; subst; auto.
        -- apply Hl. now left.
        -- specialize (Hl a (or_introl eq_refl)). specialize (Hr y Hy). lia.
Qed.

(** ** Split: what the three results hold *)

Ltac split_rec_cases k key l r :=
  cbn [split_rec]; destruct (Z.eqb_spec k key) as [?|?];
  [ subst
  | destruct (Z.ltb_spec key k);
    [ destruct (split_rec l key) as [[? ?] ?]
    | destruct (split_rec r key) as [[? ?] ?] ] ];
  cbn [less greater matched fst snd] in *.

(** The traversal of [v] is cut in three: below, matched, above. *)
Lemma split_rec_traverse v key :
  traverse v =
  traverse (less (split_rec v key)) ++ entry_of (matched (split_rec v key)) ++
  traverse (greater (split_rec v key)).
Proof.
  induction v as [|k x p l IHl r IHr]; [reflexivity|].
  split_rec_cases k key l r; cbn.
  - reflexivity.
  - rewrite IHl. now rewrite <- !app_assoc.
  - rewrite IHr. now rewrite <- !app_assoc.
Qed.

(** Whatever holds of all keys of [v] holds of the keys of the results. *)
Lemma split_rec_all_keys P v key :
  all_keys P v ->
  all_keys P (less (split_rec v key)) /\
  all_keys P (greater (split_rec v key)) /\
  all_keys P (matched (split_rec v key)).
Proof.
  induction v as [|k x p l IHl r IHr]; [cbn; tauto|].
  intros H. pose proof H as (Hk & Hl & Hr).
  specialize (IHl Hl). specialize (IHr Hr).
  split_rec_cases k key l r; cbn; tauto.
Qed.

Lemma split_rec_bounds v key :
  bst v ->
  all_keys (fun k => k < key) (less (split_rec v key)) /\
  all_keys (fun k => key < k) (greater (split_rec v key)).
Proof.
  induction v as [|k x p l IHl r IHr]; [cbn; tauto|].
  intros (Hl & Hr & Bl & Br).
  specialize (IHl Bl). specialize (IHr Br).
  split_rec_cases k key l r; cbn.
  - tauto.
  - repeat split; try tauto; try lia.
    eapply all_keys_impl; [|exact Hr]. cbn. lia.
  - repeat split; try tauto; try lia.
    eapply all_keys_impl; [|exact Hl]. cbn. lia.
Qed.

Lemma split_rec_bst v key :
  bst v ->
  bst (less (split_rec v key)) /\ bst (greater (split_rec v key)) /\
  bst (matched (split_rec v key)).
Proof.
  induction v as [|k x p l IHl r IHr]; [cbn; tauto|].
  intros H. pose proof H as (Hl & Hr & Bl & Br).
  specialize (IHl Bl). specialize (IHr Br).
  pose proof (split_rec_all_keys _ l key Hl) as Al.
  pose proof (split_rec_all_keys _ r key Hr) as Ar.
  split_rec_cases k key l r; cbn; tauto.
Qed.

(** The matched node carries the key asked for and is a node of [v]. *)
Lemma split_rec_matched v key :
  subnode (matched (split_rec v key)) v /\
  match matched (split_rec v key) with
  | Nil => True
  | Nd k _ _ _ _ => k = key
  end.
Proof.
  induction v as [|k x p l IHl r IHr]; [cbn; tauto|].
  split_rec_cases k key l r; cbn; tauto.
Qed.

(** Under search-tree order, a key of [v] that is [key] is the matched
    node's. *)
Lemma split_rec_matched_Nil v key :
  bst v -> matched (split_rec v key) = Nil -> ~ In key (keys v).
Proof.
  intros B E Hin. pose proof (split_rec_bounds v key B) as [Hlt Hgt].
  rewrite all_keys_In in Hlt, Hgt.
  unfold keys in Hin. rewrite (split_rec_traverse v key), E in Hin.
  cbn in Hin. rewrite map_app, in_app_iff in Hin.
  destruct Hin as [Hin|Hin].
  - specialize (Hlt _ Hin). lia.
  - specialize (Hgt _ Hin). lia.
Qed.

Lemma filter_all (A : Type) (f : A -> bool) (xs : list A) :
  (forall e, In e xs -> f e = true) -> filter f xs = xs.
Proof.
  induction xs as [|a xs IH]; cbn; intros H; [reflexivity|].
  rewrite (H a (or_introl eq_refl)), IH; auto.
Qed.

Lemma filter_none (A : Type) (f : A -> bool) (xs : list A) :
  (forall e, In e xs -> f e = false) -> filter f xs = [].
Proof.
  induction xs as [|a xs IH]; cbn; intros H; [reflexivity|].
  rewrite (H a (or_introl eq_refl)), IH; auto.
Qed.

Lemma all_keys_traverse P v e :
  all_keys P v -> In e (traverse v) -> P (fst e).
Proof.
  rewrite all_keys_In. intros H Hin. apply H. unfold keys. now apply in_map.
Qed.

Lemma split_rec_filter v key :
  bst v ->
  traverse (less (split_rec v key)) =
    filter (fun e => fst e <? key) (traverse v) /\
  traverse (greater (split_rec v key)) =
    filter (fun e => key <? fst e) (traverse v).
Proof.
  intros B. pose proof (split_rec_bounds v key B) as [Hlt Hgt].
  pose proof (split_rec_matched v key) as [_ Hm].
  rewrite (split_rec_traverse v key) at 1 2.
  rewrite !filter_app.
  split.
  - rewrite filter_all, (filter_none _ _ (traverse (greater _))).
    + destruct (matched (split_rec v key)); cbn; [now rewrite app_nil_r|].
      subst. rewrite Z.ltb_irrefl. now rewrite app_nil_r.
    + intros e He. apply (all_keys_traverse _ _ _ Hgt) in He. cbn in He. lia.
    + intros e He. apply (all_keys_traverse _ _ _ Hlt) in He. cbn in He. lia.
  - rewrite filter_none, (filter_all _ _ (traverse (greater _))).
    + destruct (matched (split_rec v key)); cbn; [reflexivity|].
      subst. now rewrite Z.ltb_irrefl.
    + intros e He. apply (all_keys_traverse _ _ _ Hgt) in He. cbn in He. lia.
    + intros e He. apply (all_keys_traverse _ _ _ Hlt) in He. cbn in He. lia.
Qed.

(** ** Join: traversal and invariants *)

Lemma traverse_join v1 v2 :
  traverse (join v1 v2) = traverse v1 ++ traverse v2.
Proof.
  funelim (join v1 v2); cbn.
  - reflexivity.
  - now rewrite app_nil_r.
  - match goal with IH : traverse _ = _ |- _ => rewrite IH end.
    cbn. now rewrite <- app_assoc.
  - match goal with IH : traverse _ = _ |- _ => rewrite IH end.
    cbn. now rewrite <- !app_assoc.
Qed.

Lemma keys_join v1 v2 : keys (join v1 v2) = keys v1 ++ keys v2.
Proof. unfold keys. now rewrite traverse_join, map_app. Qed.

Lemma join_all_keys P v1 v2 :
  all_keys P v1 -> all_keys P v2 -> all_keys P (join v1 v2).
Proof.
  rewrite !all_keys_In, keys_join. intros H1 H2 k Hk.
  apply in_app_iff in Hk. destruct Hk; auto.
Qed.

Lemma keys_before_In v1 v2 :
  keys_before v1 v2 <->
  forall k1 k2, In k1 (keys v1) -> In k2 (keys v2) -> k1 < k2.
Proof.
  unfold keys_before. rewrite all_keys_In. split.
  - intros H k1 k2 H1 H2. specialize (H k1 H1). rewrite all_keys_In in H. auto.
  - intros H k1 H1. rewrite all_keys_In. auto.
Qed.

(** Keys below a pivot come before keys above it. *)
Lemma keys_before_pivot k v1 v2 :
  all_keys (fun k' => k' < k) v1 -> all_keys (fun k' => k < k') v2 ->
  keys_before v1 v2.
Proof.
  rewrite keys_before_In, !all_keys_In. intros H1 H2 k1 k2 I1 I2.
  specialize (H1 _ I1). specialize (H2 _ I2). cbn in *. lia.
Qed.

Lemma join_bst v1 v2 :
  bst v1 -> bst v2 -> keys_before v1 v2 -> bst (join v1 v2).
Proof.
  funelim (join v1 v2); intros B1 B2 KB; try assumption.
  - (* v1's root on top *)
    cbn [bst] in *. destruct B1 as (Hl & Hr & Bl & Br).
    pose proof KB as (Hk & KBl & KBr). fold (keys_before r1 (Nd k2 x2 p2 l2 r2)) in KBr.
    repeat split; auto.
    apply join_all_keys; assumption.
  - (* v2's root on top *)
    cbn [bst] in *. destruct B2 as (Hl & Hr & Bl & Br).
    rewrite keys_before_In in KB.
    repeat split; auto.
    + apply join_all_keys; [|assumption].
      rewrite all_keys_In. intros k Hk. apply KB; [assumption|].
      rewrite keys_Nd. apply in_app_iff. right. now left.
    + match goal with IH : _ -> _ -> _ -> bst _ |- _ => apply IH end; auto.
      rewrite keys_before_In. intros k k' Hk Hk'. apply KB; [assumption|].
      rewrite keys_Nd. apply in_app_iff. now left.
Qed.

Lemma join_prio_ge q v1 v2 :
  prio_ge q v1 -> prio_ge q v2 -> prio_ge q (join v1 v2).
Proof. funelim (join v1 v2); cbn; auto. Qed.

Lemma join_heap v1 v2 : heap v1 -> heap v2 -> heap (join v1 v2).
Proof.
  funelim (join v1 v2); intros H1 H2; try assumption.
  - apply Z.ltb_lt in Heq. cbn [heap] in *.
    destruct H1 as (Pl & Pr & Hl & Hr).
    repeat split; auto.
    apply join_prio_ge; [assumption|cbn; lia].
  - apply Z.ltb_ge in Heq. cbn [heap] in *.
    destruct H2 as (Pl & Pr & Hl & Hr).
    repeat split; auto.
    apply join_prio_ge; [cbn; lia|assumption].
Qed.

Lemma join_all_prios P v1 v2 :
  all_prios P v1 -> all_prios P v2 -> all_prios P (join v1 v2).
Proof.
  funelim (join v1 v2); intros H1 H2; try assumption.
  all: cbn [all_prios] in *; repeat split; try tauto.
  all: match goal with
       | IH : context [all_prios _ (join _ _)] |- _ => apply IH
       end; tauto.
Qed.

(** ** The set operations keep what holds of all keys *)

Lemma split_all_keys P v key :
  all_keys P v ->
  all_keys P (less (split v key)) /\
  all_keys P (greater (split v key)) /\
  all_keys P (matched (split v key)).
Proof. rewrite split_is_split_rec. apply split_rec_all_keys. Qed.

Lemma union_all_keys P v1 v2 :
  all_keys P v1 -> all_keys P v2 -> all_keys P (union_helper v1 v2).
Proof.
  funelim (union_helper v1 v2); intros A1 A2; try assumption.
  - pose proof (split_all_keys P _ k1 A2) as (S1 & S2 & _).
    cbn [all_keys] in *. intuition.
  - pose proof (split_all_keys P _ k2 A1) as (S1 & S2 & _).
    cbn [all_keys] in *. intuition.
Qed.

Lemma intersect_all_keys P v1 v2 :
  all_keys P v1 -> all_keys P v2 -> all_keys P (intersect_helper v1 v2).
Proof.
  funelim (intersect_helper v1 v2); intros A1 A2; try exact I.
  - pose proof (split_all_keys P _ k1 A2) as (S1 & S2 & _).
    destruct (matched (split (Nd k2 x2 p2 l2 r2) k1)).
    + apply join_all_keys; cbn [all_keys] in *; intuition.
    + cbn [all_keys] in *. intuition.
  - pose proof (split_all_keys P _ k2 A1) as (S1 & S2 & _).
    destruct (matched (split (Nd k1 x1 p1 l1 r1) k2)).
    + apply join_all_keys; cbn [all_keys] in *; intuition.
    + cbn [all_keys] in *. intuition.
Qed.

Lemma difference_all_keys P v1 v2 :
  all_keys P v1 -> all_keys P (difference_helper v1 v2).
Proof.
  funelim (difference_helper v1 v2); intros A1; try assumption.
  destruct (matched (split (Nd k2 x2 p2 l2 r2) k1)).
  - cbn [all_keys] in *. intuition.
  - apply join_all_keys; cbn [all_keys] in *; intuition.
Qed.

(** ** The set operations keep the search-tree order *)

Lemma split_bst v key :
  bst v ->
  bst (less (split v key)) /\ bst (greater (split v key)) /\
  bst (matched (split v key)).
Proof. rewrite split_is_split_rec. apply split_rec_bst. Qed.

Lemma split_bounds v key :
  bst v ->
  all_keys (fun k => k < key) (less (split v key)) /\
  all_keys (fun k => key < k) (greater (split v key)).
Proof. rewrite split_is_split_rec. apply split_rec_bounds. Qed.

Lemma union_bst v1 v2 : bst v1 -> bst v2 -> bst (union_helper v1 v2).
Proof.
  funelim (union_helper v1 v2); intros B1 B2; try assumption.
  - pose proof (split_bst _ k1 B2) as (S1 & S2 & _).
    pose proof (split_bounds _ k1 B2) as (L1 & L2).
    cbn [bst] in B1 |- *. destruct B1 as (Hl & Hr & Bl & Br).
    repeat split; auto using union_all_keys.
  - pose proof (split_bst _ k2 B1) as (S1 & S2 & _).
    pose proof (split_bounds _ k2 B1) as (L1 & L2).
    cbn [bst] in B2 |- *. destruct B2 as (Hl & Hr & Bl & Br).
    repeat split; auto using union_all_keys.
Qed.

Lemma intersect_bst v1 v2 :
  bst v1 -> bst v2 -> bst (intersect_helper v1 v2).
Proof.
  funelim (intersect_helper v1 v2); intros B1 B2; try exact I.
  - pose proof (split_bst _ k1 B2) as (S1 & S2 & _).
    pose proof (split_bounds _ k1 B2) as (L1 & L2).
    cbn [bst] in B1. destruct B1 as (Hl & Hr & Bl & Br).
    destruct (matched (split (Nd k2 x2 p2 l2 r2) k1)).
    + apply join_bst; auto.
      apply (keys_before_pivot k1); auto using intersect_all_keys.
    + cbn [bst]. repeat split; auto using intersect_all_keys.
  - pose proof (split_bst _ k2 B1) as (S1 & S2 & _).
    pose proof (split_bounds _ k2 B1) as (L1 & L2).
    cbn [bst] in B2. destruct B2 as (Hl & Hr & Bl & Br).
    destruct (matched (split (Nd k1 x1 p1 l1 r1) k2)).
    + apply join_bst; auto.
      apply (keys_before_pivot k2); auto using intersect_all_keys.
    + cbn [bst]. repeat split; auto using intersect_all_keys.
Qed.

Lemma difference_bst v1 v2 :
  bst v1 -> bst v2 -> bst (difference_helper v1 v2).
Proof.
  funelim (difference_helper v1 v2); intros B1 B2; try assumption.
  pose proof (split_bst _ k1 B2) as (S1 & S2 & _).
  cbn [bst] in B1. destruct B1 as (Hl & Hr & Bl & Br).
  destruct (matched (split (Nd k2 x2 p2 l2 r2) k1)).
  - cbn [bst]. repeat split; auto using difference_all_keys.
  - apply join_bst; auto.
    apply (keys_before_pivot k1); auto using difference_all_keys.
Qed.

(** ** The set operations keep the heap order *)

Lemma all_prios_impl (P Q : Z -> Prop) v :
  (forall p, P p -> Q p) -> all_prios P v -> all_prios Q v.
Proof. induction v; cbn; intuition. Qed.

Lemma all_prios_root q v : all_prios (fun p => q <= p) v -> prio_ge q v.
Proof. destruct v; cbn; tauto. Qed.

(** In a heap the root bounds every priority below. *)
Lemma heap_all_prios q v :
  heap v -> prio_ge q v -> all_prios (fun p => q <= p) v.
Proof.
  revert q. induction v as [|k x p l IHl r IHr]; cbn; [tauto|].
  intros q (Pl & Pr & Hl & Hr) Hq. repeat split; [assumption|..].
  - eapply all_prios_impl; [|apply (IHl p); assumption]. cbn. lia.
  - eapply all_prios_impl; [|apply (IHr p); assumption]. cbn. lia.
Qed.

Lemma split_rec_all_prios P v key :
  all_prios P v ->
  all_prios P (less (split_rec v key)) /\
  all_prios P (greater (split_rec v key)) /\
  all_prios P (matched (split_rec v key)).
Proof.
  induction v as [|k x p l IHl r IHr]; [cbn; tauto|].
  intros H. pose proof H as (Hk & Hl & Hr).
  specialize (IHl Hl). specialize (IHr Hr).
  split_rec_cases k key l r; cbn; tauto.
Qed.

Lemma split_rec_heap v key :
  heap v ->
  heap (less (split_rec v key)) /\ heap (greater (split_rec v key)) /\
  heap (matched (split_rec v key)).
Proof.
  induction v as [|k x p l IHl r IHr]; [cbn; tauto|].
  intros H. pose proof H as (Pl & Pr & Hl & Hr).
  specialize (IHl Hl). specialize (IHr Hr).
  pose proof (split_rec_all_prios _ l key (heap_all_prios p l Hl Pl))
    as (Al1 & Al2 & _).
  pose proof (split_rec_all_prios _ r key (heap_all_prios p r Hr Pr))
    as (Ar1 & Ar2 & _).
  apply all_prios_root in Al1, Al2, Ar1, Ar2.
  split_rec_cases k key l r; cbn; tauto.
Qed.

Lemma split_all_prios P v key :
  all_prios P v ->
  all_prios P (less (split v key)) /\
  all_prios P (greater (split v key)) /\
  all_prios P (matched (split v key)).
Proof. rewrite split_is_split_rec. apply split_rec_all_prios. Qed.

Lemma split_heap v key :
  heap v ->
  heap (less (split v key)) /\ heap (greater (split v key)) /\
  heap (matched (split v key)).
Proof. rewrite split_is_split_rec. apply split_rec_heap. Qed.

Lemma union_all_prios P v1 v2 :
  all_prios P v1 -> all_prios P v2 -> all_prios P (union_helper v1 v2).
Proof.
  funelim (union_helper v1 v2); intros A1 A2; try assumption.
  - pose proof (split_all_prios P _ k1 A2) as (S1 & S2 & _).
    cbn [all_prios] in *. intuition.
  - pose proof (split_all_prios P _ k2 A1) as (S1 & S2 & _).
    cbn [all_prios] in *. intuition.
Qed.

Lemma intersect_all_prios P v1 v2 :
  all_prios P v1 -> all_prios P v2 -> all_prios P (intersect_helper v1 v2).
Proof.
  funelim (intersect_helper v1 v2); intros A1 A2; try exact I.
  - pose proof (split_all_prios P _ k1 A2) as (S1 & S2 & _).
    destruct (matched (split (Nd k2 x2 p2 l2 r2) k1)).
    + apply join_all_prios; cbn [all_prios] in *; intuition.
    + cbn [all_prios] in *. intuition.
  - pose proof (split_all_prios P _ k2 A1) as (S1 & S2 & _).
    destruct (matched (split (Nd k1 x1 p1 l1 r1) k2)).
    + apply join_all_prios; cbn [all_prios] in *; intuition.
    + cbn [all_prios] in *. intuition.
Qed.

Lemma difference_all_prios P v1 v2 :
  all_prios P v1 -> all_prios P (difference_helper v1 v2).
Proof.
  funelim (difference_helper v1 v2); intros A1; try assumption.
  destruct (matched (split (Nd k2 x2 p2 l2 r2) k1)).
  - cbn [all_prios] in *. intuition.
  - apply join_all_prios; cbn [all_prios] in *; intuition.
Qed.

(** Every priority of a heap whose root is at least [q] is at least [q];
    so is every priority of what [split] cuts out of it. *)
Lemma heap_split_prios q v key :
  heap v -> prio_ge q v ->
  all_prios (fun p => q <= p) (less (split v key)) /\
  all_prios (fun p => q <= p) (greater (split v key)).
Proof.
  intros H Hq.
  pose proof (split_all_prios _ v key (heap_all_prios q v H Hq)). tauto.
Qed.

Lemma union_heap v1 v2 : heap v1 -> heap v2 -> heap (union_helper v1 v2).
Proof.
  funelim (union_helper v1 v2); intros H1 H2; try assumption.
  - apply Z.ltb_lt in Heq.
    pose proof (split_heap _ k1 H2) as (S1 & S2 & _).
    assert (Hq : prio_ge p1 (Nd k2 x2 p2 l2 r2)) by (cbn; lia).
    pose proof (heap_split_prios p1 _ k1 H2 Hq) as (A1 & A2).
    cbn [heap] in H1 |- *. destruct H1 as (Pl & Pr & Hl & Hr).
    repeat split; auto.
    + apply all_prios_root, union_all_prios; auto using heap_all_prios.
    + apply all_prios_root, union_all_prios; auto using heap_all_prios.
  - apply Z.ltb_ge in Heq.
    pose proof (split_heap _ k2 H1) as (S1 & S2 & _).
    assert (Hq : prio_ge p2 (Nd k1 x1 p1 l1 r1)) by (cbn; lia).
    pose proof (heap_split_prios p2 _ k2 H1 Hq) as (A1 & A2).
    cbn [heap] in H2 |- *. destruct H2 as (Pl & Pr & Hl & Hr).
    repeat split; auto.
    + apply all_prios_root, union_all_prios; auto using heap_all_prios.
    + apply all_prios_root, union_all_prios; auto using heap_all_prios.
Qed.

Lemma intersect_heap v1 v2 :
  heap v1 -> heap v2 -> heap (intersect_helper v1 v2).
Proof.
  funelim (intersect_helper v1 v2); intros H1 H2; try exact I.
  - apply Z.ltb_lt in Heq.
    pose proof (split_heap _ k1 H2) as (S1 & S2 & _).
    assert (Hq : prio_ge p1 (Nd k2 x2 p2 l2 r2)) by (cbn; lia).
    pose proof (heap_split_prios p1 _ k1 H2 Hq) as (A1 & A2).
    cbn [heap] in H1. destruct H1 as (Pl & Pr & Hl & Hr).
    destruct (matched (split (Nd k2 x2 p2 l2 r2) k1)).
    + apply join_heap; auto.
    + cbn [heap]. repeat split; auto.
      * apply all_prios_root, intersect_all_prios; auto using heap_all_prios.
      * apply all_prios_root, intersect_all_prios; auto using heap_all_prios.
  - apply Z.ltb_ge in Heq.
    pose proof (split_heap _ k2 H1) as (S1 & S2 & _).
    assert (Hq : prio_ge p2 (Nd k1 x1 p1 l1 r1)) by (cbn; lia).
    pose proof (heap_split_prios p2 _ k2 H1 Hq) as (A1 & A2).
    cbn [heap] in H2. destruct H2 as (Pl & Pr & Hl & Hr).
    destruct (matched (split (Nd k1 x1 p1 l1 r1) k2)).
    + apply join_heap; auto.
    + cbn [heap]. repeat split; auto.
      * apply all_prios_root, intersect_all_prios; auto using heap_all_prios.
      * apply all_prios_root, intersect_all_prios; auto using heap_all_prios.
Qed.

(** [difference_helper] never looks at the priorities of [v2]. *)
Lemma difference_heap v1 v2 : heap v1 -> heap (difference_helper v1 v2).
Proof.
  funelim (difference_helper v1 v2); intros H1; try assumption.
  cbn [heap] in H1. destruct H1 as (Pl & Pr & Hl & Hr).
  destruct (matched (split (Nd k2 x2 p2 l2 r2) k1)).
  - cbn [heap]. repeat split; auto.
    + apply all_prios_root, difference_all_prios; auto using heap_all_prios.
    + apply all_prios_root, difference_all_prios; auto using heap_all_prios.
  - apply join_heap; auto.
Qed.

(** ** Membership across a split and across a node *)

Lemma mem_Nd k k0 x p l r :
  mem k (Nd k0 x p l r) = mem k l || (k =? k0) || mem k r.
Proof.
  unfold mem. rewrite keys_Nd, existsb_app. cbn. now rewrite orb_assoc.
Qed.

Lemma mem_above k v : all_keys (fun k' => k < k') v -> mem k v = false.
Proof.
  rewrite all_keys_In, mem_false. intros H Hin. specialize (H _ Hin). lia.
Qed.

Lemma mem_below k v : all_keys (fun k' => k' < k) v -> mem k v = false.
Proof.
  rewrite all_keys_In, mem_false. intros H Hin. specialize (H _ Hin). lia.
Qed.

Lemma all_keys_lt_trans k k' v :
  k <= k' -> all_keys (fun y => y < k) v -> all_keys (fun y => y < k') v.
Proof. intros H. apply all_keys_impl. cbn. lia. Qed.

Lemma all_keys_gt_trans k k' v :
  k' <= k -> all_keys (fun y => k < y) v -> all_keys (fun y => k' < y) v.
Proof. intros H. apply all_keys_impl. cbn. lia. Qed.

Lemma mem_Nd_lt k k0 x p l r :
  bst (Nd k0 x p l r) -> k < k0 -> mem k (Nd k0 x p l r) = mem k l.
Proof.
  intros (_ & Hr & _) Hlt. rewrite mem_Nd.
  rewrite (mem_above k r) by (eapply all_keys_gt_trans; [|exact Hr]; lia).
  destruct (Z.eqb_spec k k0); [lia|]. now rewrite !orb_false_r.
Qed.

Lemma mem_Nd_gt k k0 x p l r :
  bst (Nd k0 x p l r) -> k0 < k -> mem k (Nd k0 x p l r) = mem k r.
Proof.
  intros (Hl & _) Hlt. rewrite mem_Nd.
  rewrite (mem_below k l) by (eapply all_keys_lt_trans; [|exact Hl]; lia).
  destruct (Z.eqb_spec k k0); [lia|]. reflexivity.
Qed.

Lemma mem_Nd_root k x p l r : mem k (Nd k x p l r) = true.
Proof. rewrite mem_Nd, Z.eqb_refl. now rewrite orb_true_r. Qed.

Lemma split_traverse v key :
  traverse v =
  traverse (less (split v key)) ++ entry_of (matched (split v key)) ++
  traverse (greater (split v key)).
Proof. rewrite split_is_split_rec. apply split_rec_traverse. Qed.

Lemma split_matched_key v key :
  match matched (split v key) with
  | Nil => True
  | Nd k _ _ _ _ => k = key
  end.
Proof. rewrite split_is_split_rec. apply split_rec_matched. Qed.

Lemma mem_split k v key :
  mem k v =
  mem k (less (split v key)) ||
  existsb (Z.eqb k) (map fst (entry_of (matched (split v key)))) ||
  mem k (greater (split v key)).
Proof.
  unfold mem at 1. unfold keys. rewrite (split_traverse v key).
  rewrite !map_app, !existsb_app. now rewrite orb_assoc.
Qed.

Lemma mem_split_less k v key :
  bst v -> k < key -> mem k (less (split v key)) = mem k v.
Proof.
  intros B Hlt. rewrite (mem_split k v key).
  pose proof (split_bounds v key B) as (_ & Hgt).
  pose proof (split_matched_key v key) as Hm.
  rewrite (mem_above k (greater _))
    by (eapply all_keys_gt_trans; [|exact Hgt]; lia).
  destruct (matched (split v key)); cbn.
  - now rewrite !orb_false_r.
  - subst. destruct (Z.eqb_spec k key); [lia|]. now rewrite !orb_false_r.
Qed.

Lemma mem_split_greater k v key :
  bst v -> key < k -> mem k (greater (split v key)) = mem k v.
Proof.
  intros B Hlt. rewrite (mem_split k v key).
  pose proof (split_bounds v key B) as (Hl & _).
  pose proof (split_matched_key v key) as Hm.
  rewrite (mem_below k (less _))
    by (eapply all_keys_lt_trans; [|exact Hl]; lia).
  destruct (matched (split v key)); cbn.
  - reflexivity.
  - subst. destruct (Z.eqb_spec k key); [lia|]. reflexivity.
Qed.

Lemma mem_split_matched v key :
  bst v ->
  mem key v = match matched (split v key) with Nil => false | _ => true end.
Proof.
  intros B. rewrite (mem_split key v key).
  pose proof (split_bounds v key B) as (Hl & Hg).
  pose proof (split_matched_key v key) as Hm.
  rewrite (mem_below key (less _)), (mem_above key (greater _)) by assumption.
  destruct (matched (split v key)); cbn; [reflexivity|].
  subst. now rewrite Z.eqb_refl.
Qed.

(** ** Difference and intersection filter the first operand *)

Lemma difference_traverse v1 v2 :
  bst v1 -> bst v2 ->
  traverse (difference_helper v1 v2) =
  filter (fun e => negb (mem (fst e) v2)) (traverse v1).
Proof.
  funelim (difference_helper v1 v2); intros B1 B2.
  - reflexivity.
  - now rewrite filter_all.
  - pose proof (split_bst _ k1 B2) as (S1 & S2 & _).
    pose proof (mem_split_matched _ k1 B2) as Hm.
    pose proof B1 as (Hl & Hr & Bl & Br).
    set (v2 := Nd k2 x2 p2 l2 r2) in *.
    assert (E1 : traverse (difference_helper l1 (less (split v2 k1))) =
                 filter (fun e => negb (mem (fst e) v2)) (traverse l1)).
    { rewrite H by assumption. apply filter_ext_in. intros e He.
      apply (all_keys_traverse _ _ _ Hl) in He.
      now rewrite mem_split_less. }
    assert (E2 : traverse (difference_helper r1 (greater (split v2 k1))) =
                 filter (fun e => negb (mem (fst e) v2)) (traverse r1)).
    { rewrite H0 by assumption. apply filter_ext_in. intros e He.
      apply (all_keys_traverse _ _ _ Hr) in He.
      now rewrite mem_split_greater. }
    cbn [traverse]. rewrite filter_app. cbn [filter fst]. rewrite Hm.
    destruct (matched (split v2 k1)); cbn [negb].
    + cbn [traverse]. now rewrite E1, E2.
    + now rewrite traverse_join, E1, E2.
Qed.

Lemma intersect_traverse v1 v2 :
  bst v1 -> bst v2 ->
  traverse (intersect_helper v1 v2) =
  filter (fun e => mem (fst e) v2) (traverse v1).
Proof.
  funelim (intersect_helper v1 v2); intros B1 B2.
  - reflexivity.
  - now rewrite filter_none.
  - (* v1's root is the pivot, v2 is split *)
    pose proof (split_bst _ k1 B2) as (S1 & S2 & _).
    pose proof (mem_split_matched _ k1 B2) as Hm.
    pose proof B1 as (Hl & Hr & Bl & Br).
    set (v2 := Nd k2 x2 p2 l2 r2) in *.
    assert (E1 : traverse (intersect_helper l1 (less (split v2 k1))) =
                 filter (fun e => mem (fst e) v2) (traverse l1)).
    { rewrite H by assumption. apply filter_ext_in. intros e He.
      apply (all_keys_traverse _ _ _ Hl) in He.
      now rewrite mem_split_less. }
    assert (E2 : traverse (intersect_helper r1 (greater (split v2 k1))) =
                 filter (fun e => mem (fst e) v2) (traverse r1)).
    { rewrite H0 by assumption. apply filter_ext_in. intros e He.
      apply (all_keys_traverse _ _ _ Hr) in He.
      now rewrite mem_split_greater. }
    cbn [traverse]. rewrite filter_app. cbn [filter fst]. rewrite Hm.
    destruct (matched (split v2 k1)).
    + now rewrite traverse_join, E1, E2.
    + cbn [traverse]. now rewrite E1, E2.
  - (* v2's root is the pivot, v1 is split *)
    pose proof (split_bst _ k2 B1) as (S1 & S2 & _).
    pose proof (split_bounds _ k2 B1) as (L1 & L2).
    pose proof (split_matched_key (Nd k1 x1 p1 l1 r1) k2) as Hk.
    pose proof B2 as (Hl & Hr & Bl & Br).
    rewrite (split_traverse (Nd k1 x1 p1 l1 r1) k2), !filter_app.
    set (v1 := Nd k1 x1 p1 l1 r1) in *.
    assert (E1 : traverse (intersect_helper (less (split v1 k2)) l2) =
                 filter (fun e => mem (fst e) (Nd k2 x2 p2 l2 r2))
                        (traverse (less (split v1 k2)))).
    { rewrite H by assumption. apply filter_ext_in. intros e He.
      apply (all_keys_traverse _ _ _ L1) in He.
      now rewrite mem_Nd_lt. }
    assert (E2 : traverse (intersect_helper (greater (split v1 k2)) r2) =
                 filter (fun e => mem (fst e) (Nd k2 x2 p2 l2 r2))
                        (traverse (greater (split v1 k2)))).
    { rewrite H0 by assumption. apply filter_ext_in. intros e He.
      apply (all_keys_traverse _ _ _ L2) in He.
      now rewrite mem_Nd_gt. }
    destruct (matched (split v1 k2)).
    + now rewrite traverse_join, E1, E2.
    + subst. cbn [traverse entry_of filter fst].
      rewrite mem_Nd_root. now rewrite E1, E2.
Qed.

(** ** Union: every pair of the first operand, and the pairs of the second
    whose key the first does not have *)

Lemma In_split_less e v key :
  bst v ->
  In e (traverse (less (split v key))) <-> In e (traverse v) /\ fst e < key.
Proof.
  intros B. rewrite split_is_split_rec.
  destruct (split_rec_filter v key B) as [-> _].
  rewrite filter_In, Z.ltb_lt. tauto.
Qed.

Lemma In_split_greater e v key :
  bst v ->
  In e (traverse (greater (split v key))) <-> In e (traverse v) /\ key < fst e.
Proof.
  intros B. rewrite split_is_split_rec.
  destruct (split_rec_filter v key B) as [_ ->].
  rewrite filter_In, Z.ltb_lt. tauto.
Qed.

Lemma In_traverse_mem k x v : In (k, x) (traverse v) -> mem k v = true.
Proof. intros H. apply mem_In. unfold keys. now apply (in_map fst) in H. Qed.

Lemma union_traverse v1 v2 :
  bst v1 -> bst v2 ->
  forall k x,
    In (k, x) (traverse (union_helper v1 v2)) <->
    In (k, x) (traverse v1) \/ (mem k v1 = false /\ In (k, x) (traverse v2)).
Proof.
  funelim (union_helper v1 v2); intros B1 B2 k x.
  - cbn. tauto.
  - cbn [traverse In]. tauto.
  - (* v1's root on top, v2 is split *)
    pose proof (split_bst _ k1 B2) as (S1 & S2 & _).
    pose proof B1 as (Hl & Hr & Bl & Br).
    set (v2 := Nd k2 x2 p2 l2 r2) in *.
    cbn [traverse]. rewrite !in_app_iff. cbn [In].
    rewrite H, H0 by assumption.
    rewrite (In_split_less (k, x)), (In_split_greater (k, x)) by assumption.
    rewrite mem_Nd, !orb_false_iff, pair_equal_spec, Z.eqb_neq. cbn [fst].
    pose proof (fun H => all_keys_traverse _ _ (k, x) Hl H) as Il.
    pose proof (fun H => all_keys_traverse _ _ (k, x) Hr H) as Ir.
    cbn [fst] in Il, Ir.
    assert (Ml : k1 <= k -> mem k l1 = false)
      by (intros; apply mem_below; eapply all_keys_lt_trans; eauto).
    assert (Mr : k <= k1 -> mem k r1 = false)
      by (intros; apply mem_above; eapply all_keys_gt_trans; eauto).
    destruct (Z.lt_trichotomy k k1) as [?|[?|?]].
    all: try (assert (~ In (k, x) (traverse l1))
                by (intros HH; apply Il in HH; lia)).
    all: try (assert (~ In (k, x) (traverse r1))
                by (intros HH; apply Ir in HH; lia)).
    all: try (specialize (Ml ltac:(lia))); try (specialize (Mr ltac:(lia))).
    all: clear H H0; intuition lia.
  - (* v2's root on top, v1 is split; a matched node gives the value *)
    pose proof (split_bst _ k2 B1) as (S1 & S2 & _).
    pose proof (split_bounds _ k2 B1) as (L1 & L2).
    pose proof (split_matched_key (Nd k1 x1 p1 l1 r1) k2) as Hk.
    pose proof B2 as (Hl & Hr & Bl & Br).
    rewrite (mem_split k (Nd k1 x1 p1 l1 r1) k2).
    rewrite (split_traverse (Nd k1 x1 p1 l1 r1) k2).
    set (v1 := Nd k1 x1 p1 l1 r1) in *.
    cbn [traverse]. rewrite !in_app_iff. cbn [In].
    rewrite H, H0 by assumption.
    rewrite !orb_false_iff, !pair_equal_spec.
    pose proof (fun H => all_keys_traverse _ _ (k, x) Hl H) as Il.
    pose proof (fun H => all_keys_traverse _ _ (k, x) Hr H) as Ir.
    pose proof (fun H => all_keys_traverse _ _ (k, x) L1 H) as Il'.
    pose proof (fun H => all_keys_traverse _ _ (k, x) L2 H) as Ir'.
    cbn [fst] in Il, Ir, Il', Ir'.
    assert (Ml : k2 <= k -> mem k (less (split v1 k2)) = false)
      by (intros; apply mem_below; eapply all_keys_lt_trans; eauto).
    assert (Mr : k <= k2 -> mem k (greater (split v1 k2)) = false)
      by (intros; apply mem_above; eapply all_keys_gt_trans; eauto).
    clear H H0 Heqcall.
    destruct (matched (split v1 k2)) as [|ka xa pa la ra];
      cbn [entry_of map existsb In fst]; [|subst ka];
      rewrite ?orb_false_r, ?pair_equal_spec, ?Z.eqb_neq.
    all: destruct (Z.lt_trichotomy k k2) as [?|[?|?]].
    all: try (assert (~ In (k, x) (traverse l2))
                by (intros HH; apply Il in HH; lia)).
    all: try (assert (~ In (k, x) (traverse r2))
                by (intros HH; apply Ir in HH; lia)).
    all: try (assert (~ In (k, x) (traverse (less (split v1 k2))))
                by (intros HH; apply Il' in HH; lia)).
    all: try (assert (~ In (k, x) (traverse (greater (split v1 k2))))
                by (intros HH; apply Ir' in HH; lia)).
    all: try (specialize (Ml ltac:(lia))); try (specialize (Mr ltac:(lia))).
    all: intuition (try lia; try congruence).
Qed.

(** ** Removing a key that is not there *)

Lemma difference_Nil_r v : difference_helper v Nil = v.
Proof. destruct v; reflexivity. Qed.

Lemma difference_absent k x p v :
  ~ In k (keys v) -> difference_helper v (Nd k x p Nil Nil) = v.
Proof.
  induction v as [|k1 x1 p1 l1 IHl r1 IHr]; intros Hk; [reflexivity|].
  rewrite keys_Nd, in_app_iff in Hk. cbn [In] in Hk.
  simp difference_helper. rewrite split_is_split_rec. cbn [split_rec].
  destruct (Z.eqb_spec k k1); [subst; tauto|].
  destruct (k1 <? k); cbn [less greater matched fst snd];
    rewrite ?difference_Nil_r, ?IHl, ?IHr; tauto.
Qed.

(** ** The second operand of a difference counts by its keys only *)

Lemma split_rec_same_keys v v' key :
  same_keys v v' ->
  same_keys (less (split_rec v key)) (less (split_rec v' key)) /\
  same_keys (greater (split_rec v key)) (greater (split_rec v' key)) /\
  same_keys (matched (split_rec v key)) (matched (split_rec v' key)).
Proof.
  revert v'. induction v as [|k x p l IHl r IHr]; intros [|k' x' p' l' r'];
    cbn [same_keys]; try tauto.
  intros (-> & Sl & Sr).
  specialize (IHl _ Sl). specialize (IHr _ Sr).
  cbn [split_rec]. destruct (k' =? key); [cbn; tauto|].
  destruct (key <? k').
  - destruct (split_rec l key) as [[? ?] ?], (split_rec l' key) as [[? ?] ?].
    cbn in *. tauto.
  - destruct (split_rec r key) as [[? ?] ?], (split_rec r' key) as [[? ?] ?].
    cbn in *. tauto.
Qed.

Lemma difference_same_keys v1 v2 :
  forall v2', same_keys v2 v2' ->
  difference_helper v1 v2 = difference_helper v1 v2'.
Proof.
  funelim (difference_helper v1 v2); intros v2' S.
  - now simp difference_helper.
  - destruct v2'; [reflexivity|contradiction].
  - destruct v2' as [|k2' x2' p2' l2' r2']; [contradiction|].
    simp difference_helper. rewrite !split_is_split_rec in *.
    pose proof (split_rec_same_keys _ _ k1 S) as (S1 & S2 & Sa).
    rewrite (H _ S1), (H0 _ S2).
    destruct (matched (split_rec (Nd k2 x2 p2 l2 r2) k1)),
             (matched (split_rec (Nd k2' x2' p2' l2' r2') k1));
      cbn [same_keys] in Sa; tauto.
Qed.

(** ** The recursions with an explicit bound on their depth *)

(** Where the helpers recurse: on a child of one operand and the matching
    part of the split of the other. *)
Lemma recursion_on_left_pivot k x p l r v :
  (size l + size (less (split v k)) < size (Nd k x p l r) + size v)%nat /\
  (size r + size (greater (split v k)) < size (Nd k x p l r) + size v)%nat.
Proof. pose proof (split_size v k). cbn [size]. lia. Qed.

Lemma recursion_on_right_pivot k x p l r v :
  (size (less (split v k)) + size l < size v + size (Nd k x p l r))%nat /\
  (size (greater (split v k)) + size r < size v + size (Nd k x p l r))%nat.
Proof. pose proof (split_size v k). cbn [size]. lia. Qed.

Arguments split : simpl never.

Ltac name_split v k :=
  destruct (split v k) as [[?t1 ?t2] ?a];
  cbn [less greater matched fst snd] in *.

Lemma union_fuel_enough fuel : forall v1 v2,
  (size v1 + size v2 < fuel)%nat ->
  union_fuel fuel v1 v2 = Some (union_helper v1 v2).
Proof.
  induction fuel as [|fuel IH]; intros v1 v2 Hsz; [lia|].
  destruct v1 as [|k1 x1 p1 l1 r1], v2 as [|k2 x2 p2 l2 r2];
    try reflexivity.
  cbn [union_fuel]. simp union_helper.
  destruct (p1 <? p2); cbn.
  - pose proof (recursion_on_left_pivot k1 x1 p1 l1 r1 (Nd k2 x2 p2 l2 r2)).
    name_split (Nd k2 x2 p2 l2 r2) k1.
    rewrite !IH by lia. reflexivity.
  - pose proof (recursion_on_right_pivot k2 x2 p2 l2 r2 (Nd k1 x1 p1 l1 r1)).
    name_split (Nd k1 x1 p1 l1 r1) k2.
    rewrite !IH by lia. reflexivity.
Qed.

Lemma intersect_fuel_enough fuel : forall v1 v2,
  (size v1 + size v2 < fuel)%nat ->
  intersect_fuel fuel v1 v2 = Some (intersect_helper v1 v2).
Proof.
  induction fuel as [|fuel IH]; intros v1 v2 Hsz; [lia|].
  destruct v1 as [|k1 x1 p1 l1 r1], v2 as [|k2 x2 p2 l2 r2];
    try reflexivity.
  cbn [intersect_fuel]. simp intersect_helper.
  destruct (p1 <? p2); cbn.
  - pose proof (recursion_on_left_pivot k1 x1 p1 l1 r1 (Nd k2 x2 p2 l2 r2)).
    name_split (Nd k2 x2 p2 l2 r2) k1.
    rewrite !IH by lia. now destruct a.
  - pose proof (recursion_on_right_pivot k2 x2 p2 l2 r2 (Nd k1 x1 p1 l1 r1)).
    name_split (Nd k1 x1 p1 l1 r1) k2.
    rewrite !IH by lia. now destruct a.
Qed.

Lemma difference_fuel_enough fuel : forall v1 v2,
  (size v1 + size v2 < fuel)%nat ->
  difference_fuel fuel v1 v2 = Some (difference_helper v1 v2).
Proof.
  induction fuel as [|fuel IH]; intros v1 v2 Hsz; [lia|].
  destruct v1 as [|k1 x1 p1 l1 r1], v2 as [|k2 x2 p2 l2 r2];
    try reflexivity.
  cbn [difference_fuel]. simp difference_helper.
  pose proof (recursion_on_left_pivot k1 x1 p1 l1 r1 (Nd k2 x2 p2 l2 r2)).
  name_split (Nd k2 x2 p2 l2 r2) k1.
  rewrite !IH by lia. now destruct a.
Qed.

Lemma In_keys k v : In k (keys v) <-> exists x, In (k, x) (traverse v).
Proof.
  unfold keys. rewrite in_map_iff. split.
  - intros ([k' x] & E & H). cbn in E. subst. now exists x.
  - intros (x & H). now exists (k, x).
Qed.

Lemma split_matched_subnode v key : subnode (matched (split v key)) v.
Proof. rewrite split_is_split_rec. apply split_rec_matched. Qed.

(** * The properties *)

(** C1. For valid treaps [A] and [B], the traversal of [treap_union A B]
    is in strictly ascending key order, its keys are the keys of [A]
    together with the keys of [B], and its pairs are all the pairs of [A]
    and those pairs of [B] whose key [A] does not have: the value of a key
    comes from [A] when [A] has the key and from [B] otherwise. *)
Theorem treap_union_semantics (A B : PersistTreap) :
  valid_treap A -> valid_treap B ->
  StronglySorted Z.lt (treap_keys (treap_union A B)) /\
  (forall k,
     In k (treap_keys (treap_union A B)) <->
     In k (treap_keys A) \/ In k (treap_keys B)) /\
  (forall k x,
     In (k, x) (entries (treap_union A B)) <->
     In (k, x) (entries A) \/
     (~ In k (treap_keys A) /\ In (k, x) (entries B))).
Proof.
  intros [BA _] [BB _]. unfold treap_keys, entries, treap_union. cbn [root].
  assert (Hpairs : forall k x,
    In (k, x) (traverse (union_helper (root A) (root B))) <->
    In (k, x) (traverse (root A)) \/
    (~ In k (keys (root A)) /\ In (k, x) (traverse (root B)))).
  { intros k x. rewrite (union_traverse _ _ BA BB), mem_false. tauto. }
  split; [|split].
  - apply bst_sorted, union_bst; assumption.
  - intros k. rewrite !In_keys. split.
    + intros [x Hx]. apply Hpairs in Hx.
      destruct Hx as [Hx|[_ Hx]]; [left|right]; now exists x.
    + intros [[x Hx]|[x Hx]].
      * exists x. apply Hpairs. now left.
      * destruct (mem k (root A)) eqn:E.
        -- apply mem_In, In_keys in E. destruct E as [y Hy].
           exists y. apply Hpairs. now left.
        -- apply mem_false in E. exists x. apply Hpairs. now right.
  - exact Hpairs.
Qed.

(** C2. For valid treaps [A] and [B], the traversal of [difference A B]
    is the traversal of [A] with the pairs whose key is a key of [B] left
    out: exactly the keys of [A] that are not keys of [B], in order, each
    with its value from [A]. *)
Theorem difference_semantics (A B : PersistTreap) :
  valid_treap A -> valid_treap B ->
  entries (difference A B) =
    filter (fun e => negb (mem (fst e) (root B))) (entries A) /\
  (forall k x,
     In (k, x) (entries (difference A B)) <->
     In (k, x) (entries A) /\ ~ In k (treap_keys B)).
Proof.
  intros [BA _] [BB _]. unfold treap_keys, entries, difference. cbn [root].
  rewrite (difference_traverse _ _ BA BB). split; [reflexivity|].
  intros k x. rewrite filter_In, negb_true_iff, mem_false. reflexivity.
Qed.

(** C3. For valid treaps [A] and [B], the traversal of [intersection A B]
    is the traversal of [A] restricted to the pairs whose key is a key of
    [B]: exactly the keys present in both, in order, each with its value
    from [A]. *)
Theorem intersection_semantics (A B : PersistTreap) :
  valid_treap A -> valid_treap B ->
  entries (intersection A B) =
    filter (fun e => mem (fst e) (root B)) (entries A) /\
  (forall k x,
     In (k, x) (entries (intersection A B)) <->
     In (k, x) (entries A) /\ In k (treap_keys B)).
Proof.
  intros [BA _] [BB _]. unfold treap_keys, entries, intersection. cbn [root].
  rewrite (intersect_traverse _ _ BA BB). split; [reflexivity|].
  intros k x. rewrite filter_In, mem_In. reflexivity.
Qed.

(** C4, amended. Every operation turns valid treaps into valid treaps:
    search-tree order and heap order hold at every node of what [split],
    [join], [treap_union], [intersection], [difference], [insert] and
    [remove] return.  For [join] the operands must also meet its
    precondition: the keys of the first are below the keys of the second. *)
Theorem invariant_preservation :
  (forall t key,
     valid t ->
     valid (less (split t key)) /\ valid (greater (split t key)) /\
     valid (matched (split t key))) /\
  (forall v1 v2,
     valid v1 -> valid v2 -> keys_before v1 v2 -> valid (join v1 v2)) /\
  (forall A B,
     valid_treap A -> valid_treap B -> valid_treap (treap_union A B)) /\
  (forall A B,
     valid_treap A -> valid_treap B -> valid_treap (intersection A B)) /\
  (forall A B,
     valid_treap A -> valid_treap B -> valid_treap (difference A B)) /\
  (forall this key val prio,
     valid_treap this -> valid_treap (insert this key val prio)) /\
  (forall null this key prio,
     valid_treap this -> valid_treap (remove null this key prio)).
Proof.
  unfold valid_treap, valid, treap_union, intersection, difference, insert,
    remove, singleton. cbn [root].
  repeat apply conj.
  - intros t key [B H].
    pose proof (split_bst t key B). pose proof (split_heap t key H). tauto.
  - intros v1 v2 [B1 H1] [B2 H2] KB. auto using join_bst, join_heap.
  - intros A B [B1 H1] [B2 H2]. auto using union_bst, union_heap.
  - intros A B [B1 H1] [B2 H2]. auto using intersect_bst, intersect_heap.
  - intros A B [B1 H1] [B2 H2]. auto using difference_bst, difference_heap.
  - intros this key val prio [B H].
    split; [apply union_bst|apply union_heap]; cbn; tauto.
  - intros null this key prio [B H].
    split; [apply difference_bst|apply difference_heap]; cbn; tauto.
Qed.

(** C5. For a valid treap [t] and a key [k], [split t k] returns: in
    [less] exactly the pairs of [t] with key below [k], in [greater]
    exactly those with key above [k], and as [matched] the node of [t]
    whose key is [k] when [t] has the key and null otherwise; [k] is a key
    of neither [less] nor [greater]. *)
Theorem split_contract (t : Node) (k : Z) :
  valid t ->
  traverse (less (split t k)) = filter (fun e => fst e <? k) (traverse t) /\
  traverse (greater (split t k)) = filter (fun e => k <? fst e) (traverse t) /\
  (In k (keys t) ->
   exists x p l r,
     matched (split t k) = Nd k x p l r /\ subnode (matched (split t k)) t /\
     In (k, x) (traverse t)) /\
  (~ In k (keys t) -> matched (split t k) = Nil) /\
  ~ In k (keys (less (split t k))) /\
  ~ In k (keys (greater (split t k))).
Proof.
  intros [B _].
  pose proof (split_bounds t k B) as (Hl & Hg).
  pose proof (mem_split_matched t k B) as Hm.
  pose proof (split_matched_key t k) as Hk.
  pose proof (split_matched_subnode t k) as Hs.
  pose proof (split_traverse t k) as Ht.
  repeat split.
  - rewrite split_is_split_rec. apply split_rec_filter, B.
  - rewrite split_is_split_rec. apply split_rec_filter, B.
  - intros Hin. apply mem_In in Hin. rewrite Hin in Hm.
    destruct (matched (split t k)) as [|ka xa pa la ra]; [discriminate|].
    subst ka. exists xa, pa, la, ra. repeat split; [assumption|].
    rewrite Ht. apply in_app_iff. right. now left.
  - intros Hin. apply mem_false in Hin. rewrite Hin in Hm.
    destruct (matched (split t k)); [reflexivity|discriminate].
  - apply mem_false, mem_below, Hl.
  - apply mem_false, mem_above, Hg.
Qed.

(** C6. The loop with the two holes returns the triple that the recursion
    returns, for every tree and key. *)
Theorem split_loop_is_split_rec (t : Node) (k : Z) :
  split_loop t k = split_rec t k.
Proof.
  unfold split_loop. rewrite split_loop_iter_rec. cbn [fill_right fill_left
    fold_right]. now destruct (split_rec t k) as [[r1 r2] a].
Qed.

(** C7. Removing a key that a valid dictionary does not have is a no-op:
    [remove] returns the dictionary itself, so its content is that of [D].
    (The proof does not use validity.) *)
Theorem remove_absent (null : Tval) (D : PersistTreap) (k prio : Z) :
  valid_treap D -> ~ In k (treap_keys D) ->
  remove null D k prio = D /\ entries (remove null D k prio) = entries D.
Proof.
  intros _ Hk. unfold treap_keys in Hk.
  assert (E : remove null D k prio = D).
  { unfold remove, difference, singleton. cbn [root].
    rewrite difference_absent by assumption. now destruct D. }
  now rewrite E.
Qed.

(** C8. The placeholder value of [remove] is never read: whatever the
    placeholder, [remove] returns the same treap, hence the same content.
    More generally [difference] returns the same treap for second operands
    that agree on shape and keys, whatever values (and priorities) they
    hold. *)
Theorem remove_placeholder_discarded :
  (forall (null1 null2 : Tval) (A : PersistTreap) (k prio : Z),
     remove null1 A k prio = remove null2 A k prio /\
     entries (remove null1 A k prio) = entries (remove null2 A k prio)) /\
  (forall A B B' : PersistTreap,
     same_keys (root B) (root B') -> difference A B = difference A B').
Proof.
  assert (G : forall A B B' : PersistTreap,
             same_keys (root B) (root B') -> difference A B = difference A B').
  { intros A B B' S. unfold difference. f_equal.
    now apply difference_same_keys. }
  split; [|exact G].
  intros null1 null2 A k prio.
  assert (E : remove null1 A k prio = remove null2 A k prio)
    by (apply G; cbn; tauto).
  now rewrite E.
Qed.

(** C9. Union, intersection and difference terminate on every pair of
    treaps.  Each recursive call is on a child of one operand and a part of
    the split of the other (the pivot being the root of the first operand
    or of the second), of strictly smaller combined size; so a recursion
    depth above the combined size of the operands is never exhausted, and
    the result is the one of the helper. *)
Theorem set_operations_terminate :
  (forall k x p l r v,
     (size l + size (less (split v k)) < size (Nd k x p l r) + size v)%nat /\
     (size r + size (greater (split v k)) < size (Nd k x p l r) + size v)%nat) /\
  (forall k x p l r v,
     (size (less (split v k)) + size l < size v + size (Nd k x p l r))%nat /\
     (size (greater (split v k)) + size r < size v + size (Nd k x p l r))%nat) /\
  (forall fuel v1 v2,
     (size v1 + size v2 < fuel)%nat ->
     union_fuel fuel v1 v2 = Some (union_helper v1 v2)) /\
  (forall fuel v1 v2,
     (size v1 + size v2 < fuel)%nat ->
     intersect_fuel fuel v1 v2 = Some (intersect_helper v1 v2)) /\
  (forall fuel v1 v2,
     (size v1 + size v2 < fuel)%nat ->
     difference_fuel fuel v1 v2 = Some (difference_helper v1 v2)).
Proof.
  repeat apply conj.
  - apply recursion_on_left_pivot.
  - apply recursion_on_right_pivot.
  - apply union_fuel_enough.
  - apply intersect_fuel_enough.
  - apply difference_fuel_enough.
Qed.

(** C10. When the roots of two non-empty operands have equal priorities,
    [join] and [union_helper] put the root of the second operand on top. *)
Theorem equal_priority_tie_break (v1 v2 : Node) :
  v1 <> Nil -> v2 <> Nil -> root_prio v1 = root_prio v2 ->
  root_key (join v1 v2) = root_key v2 /\
  root_key (union_helper v1 v2) = root_key v2.
Proof.
  destruct v1 as [|k1 x1 p1 l1 r1], v2 as [|k2 x2 p2 l2 r2];
    try congruence.
  intros _ _ E. cbn in E. injection E as ->.
  simp join union_helper. rewrite Z.ltb_irrefl. cbn. split; reflexivity.
Qed.

(** * Further properties of the operations *)

(** ** Split and join *)

(** X1. [join] concatenates: whatever the operands, the traversal of the
    result is the traversal of the first followed by that of the second, and
    no node is lost or added. *)
Theorem join_concatenates (v1 v2 : Node) :
  traverse (join v1 v2) = traverse v1 ++ traverse v2 /\
  size (join v1 v2) = (size v1 + size v2)%nat.
Proof.
  split; [apply traverse_join|].
  funelim (join v1 v2); cbn [size]; try lia.
  all: match goal with IH : size _ = _ |- _ => rewrite IH end; cbn [size]; lia.
Qed.

(** X2. [split] loses nothing, on any tree, valid or not: the traversal is
    the one of [less], then the matched pair if any, then the one of
    [greater]; a matched node has the key asked for; and the two parts with
    the matched node count as many nodes as the tree. *)
Theorem split_partitions (t : Node) (k : Z) :
  traverse t =
    traverse (less (split t k)) ++ entry_of (matched (split t k)) ++
    traverse (greater (split t k)) /\
  (forall k' x p l r, matched (split t k) = Nd k' x p l r -> k' = k) /\
  (size (less (split t k)) + size (greater (split t k)) +
   length (entry_of (matched (split t k))) = size t)%nat.
Proof.
  split; [apply split_traverse|]. split.
  - intros k' x p l r E. pose proof (split_matched_key t k) as H.
    now rewrite E in H.
  - rewrite split_is_split_rec.
    induction t as [|k0 x p l IHl r IHr]; [reflexivity|].
    split_rec_cases k0 k l r; cbn [size entry_of length] in *; lia.
Qed.

(** Filtering the traversal of a tree whose keys are all on one side. *)
Lemma filter_lt_below k0 k v :
  all_keys (fun y => y < k0) v -> k0 <= k ->
  filter (fun e => fst e <? k) (traverse v) = traverse v.
Proof.
  intros H Hk. apply filter_all. intros e He.
  apply (all_keys_traverse _ _ _ H) in He. cbn in He. lia.
Qed.

Lemma filter_lt_above k0 k v :
  all_keys (fun y => k0 < y) v -> k <= k0 ->
  filter (fun e => fst e <? k) (traverse v) = [].
Proof.
  intros H Hk. apply filter_none. intros e He.
  apply (all_keys_traverse _ _ _ H) in He. cbn in He. lia.
Qed.

Lemma filter_gt_below k0 k v :
  all_keys (fun y => y < k0) v -> k0 <= k ->
  filter (fun e => k <? fst e) (traverse v) = [].
Proof.
  intros H Hk. apply filter_none. intros e He.
  apply (all_keys_traverse _ _ _ H) in He. cbn in He. lia.
Qed.

Lemma filter_gt_above k0 k v :
  all_keys (fun y => k0 < y) v -> k <= k0 ->
  filter (fun e => k <? fst e) (traverse v) = traverse v.
Proof.
  intros H Hk. apply filter_all. intros e He.
  apply (all_keys_traverse _ _ _ H) in He. cbn in He. lia.
Qed.

Lemma filter_ne_below k v :
  all_keys (fun y => y < k) v ->
  filter (fun e => negb (fst e =? k)) (traverse v) = traverse v.
Proof.
  intros H. apply filter_all. intros e He.
  apply (all_keys_traverse _ _ _ H) in He. cbn in He.
  apply negb_true_iff, Z.eqb_neq. lia.
Qed.

Lemma filter_ne_above k v :
  all_keys (fun y => k < y) v ->
  filter (fun e => negb (fst e =? k)) (traverse v) = traverse v.
Proof.
  intros H. apply filter_all. intros e He.
  apply (all_keys_traverse _ _ _ H) in He. cbn in He.
  apply negb_true_iff, Z.eqb_neq. lia.
Qed.

(** X3. Splitting a valid treap at [k] and joining the two parts again
    removes the key [k] and nothing else, and the result is a valid treap;
    when [k] is not a key, the traversal is unchanged. *)
Theorem join_split_removes (t : Node) (k : Z) :
  valid t ->
  valid (join (less (split t k)) (greater (split t k))) /\
  traverse (join (less (split t k)) (greater (split t k))) =
    filter (fun e => negb (fst e =? k)) (traverse t) /\
  (~ In k (keys t) ->
   traverse (join (less (split t k)) (greater (split t k))) = traverse t).
Proof.
  intros [B H].
  pose proof (split_bst t k B) as (B1 & B2 & _).
  pose proof (split_heap t k H) as (H1 & H2 & _).
  pose proof (split_bounds t k B) as (L1 & L2).
  pose proof (split_matched_key t k) as Hk.
  pose proof (mem_split_matched t k B) as Hm.
  assert (E : traverse (join (less (split t k)) (greater (split t k))) =
              filter (fun e => negb (fst e =? k)) (traverse t)).
  { rewrite traverse_join, (split_traverse t k) at 1.
    rewrite !filter_app, filter_ne_below, filter_ne_above by assumption.
    destruct (matched (split t k)); cbn [entry_of filter fst]; [reflexivity|].
    subst. now rewrite Z.eqb_refl. }
  split; [|split].
  - split; [apply join_bst|apply join_heap]; auto.
    now apply (keys_before_pivot k).
  - exact E.
  - intros Hin. apply mem_false in Hin. rewrite Hin in Hm.
    rewrite traverse_join, (split_traverse t k) at 1.
    destruct (matched (split t k)); [reflexivity|discriminate].
Qed.

(** ** Insert and remove *)

(** The traversal after a single node has been united with a search tree. *)
Lemma insert_traverse k x p v :
  bst v ->
  traverse (union_helper (Nd k x p Nil Nil) v) =
  filter (fun e => fst e <? k) (traverse v) ++
  (k, x) :: filter (fun e => k <? fst e) (traverse v).
Proof.
  induction v as [|k2 x2 p2 l2 IHl r2 IHr]; intros B; [reflexivity|].
  pose proof B as (Hl & Hr & Bl & Br).
  simp union_helper. destruct (p <? p2); simp union_helper.
  - rewrite split_is_split_rec. cbn [traverse].
    now destruct (split_rec_filter (Nd k2 x2 p2 l2 r2) k B) as [-> ->].
  - rewrite split_is_split_rec. cbn [split_rec].
    destruct (Z.eqb_spec k k2) as [->|Hne];
      [|destruct (Z.ltb_spec k2 k)];
      cbn [less greater matched fst snd traverse];
      rewrite ?IHl, ?IHr by assumption;
      rewrite !filter_app; cbn [filter fst].
    + rewrite Z.ltb_irrefl.
      rewrite (filter_lt_below k2 k2 l2), (filter_lt_above k2 k2 r2),
        (filter_gt_below k2 k2 l2), (filter_gt_above k2 k2 r2)
        by (assumption || lia).
      now rewrite app_nil_r.
    + destruct (Z.ltb_spec k2 k); [|lia]. destruct (Z.ltb_spec k k2); [lia|].
      rewrite (filter_lt_below k2 k l2), (filter_gt_below k2 k l2)
        by (assumption || lia).
      cbn. now rewrite <- app_assoc.
    + destruct (Z.ltb_spec k2 k); [lia|]. destruct (Z.ltb_spec k k2); [|lia].
      rewrite (filter_lt_above k2 k r2), (filter_gt_above k2 k r2)
        by (assumption || lia).
      rewrite app_nil_r, <- app_assoc. reflexivity.
Qed.

Lemma insert_valid (this : PersistTreap) k x p :
  valid_treap this -> valid_treap (insert this k x p).
Proof.
  intros [B H]. split; [apply union_bst|apply union_heap]; cbn; tauto.
Qed.

Lemma remove_valid null (this : PersistTreap) k p :
  valid_treap this -> valid_treap (remove null this k p).
Proof.
  intros [B H]. split; [apply difference_bst|apply difference_heap];
    cbn; tauto.
Qed.

Lemma insert_entries_eq (this : PersistTreap) k x p :
  valid_treap this ->
  entries (insert this k x p) =
  filter (fun e => fst e <? k) (entries this) ++
  (k, x) :: filter (fun e => k <? fst e) (entries this).
Proof. intros [B _]. now apply insert_traverse. Qed.

Lemma remove_entries_eq null (this : PersistTreap) k p :
  valid_treap this ->
  entries (remove null this k p) =
  filter (fun e => negb (fst e =? k)) (entries this).
Proof.
  intros [B _]. unfold entries, remove, difference, singleton. cbn [root].
  rewrite difference_traverse by (cbn; tauto).
  apply filter_ext. intros e. rewrite mem_Nd. cbn.
  now rewrite orb_false_r.
Qed.

Lemma filter_filter_weaker (A : Type) (f g : A -> bool) (xs : list A) :
  (forall e, f e = true -> g e = true) ->
  filter f (filter g xs) = filter f xs.
Proof.
  intros H. induction xs as [|a xs IH]; [reflexivity|]. cbn.
  destruct (g a) eqn:Eg; cbn; [now rewrite IH|].
  destruct (f a) eqn:Ef; [|assumption].
  apply H in Ef. congruence.
Qed.

(** X4. [insert] sets the value of [key] and touches nothing else: in a
    valid treap, the traversal afterwards is the pairs below [key], then
    [(key, val)], then the pairs above [key]; a pair that was stored under
    [key] before is gone (the new value overwrites it). *)
Theorem insert_sets_key (this : PersistTreap) (key : Z) (val : Tval) (prio : Z) :
  valid_treap this ->
  entries (insert this key val prio) =
    filter (fun e => fst e <? key) (entries this) ++
    (key, val) :: filter (fun e => key <? fst e) (entries this) /\
  (forall k x,
     In (k, x) (entries (insert this key val prio)) <->
     (k = key /\ x = val) \/ (k <> key /\ In (k, x) (entries this))).
Proof.
  intros V. rewrite (insert_entries_eq _ _ _ _ V). split; [reflexivity|].
  intros k x. rewrite in_app_iff. cbn [In].
  rewrite !filter_In, pair_equal_spec, !Z.ltb_lt. cbn [fst].
  destruct (Z.lt_trichotomy k key) as [?|[?|?]];
    intuition (subst; auto; try lia).
Qed.

(** X5. [remove] deletes [key] and touches nothing else: in a valid treap,
    the traversal afterwards is the traversal before without the pair of
    [key], and [key] is no longer a key. *)
Theorem remove_deletes_key (null : Tval) (this : PersistTreap) (key prio : Z) :
  valid_treap this ->
  entries (remove null this key prio) =
    filter (fun e => negb (fst e =? key)) (entries this) /\
  ~ In key (treap_keys (remove null this key prio)).
Proof.
  intros V. split; [now apply remove_entries_eq|].
  unfold treap_keys, keys. fold (entries (remove null this key prio)).
  rewrite (remove_entries_eq _ _ _ _ V), in_map_iff.
  intros ([k x] & E & Hin). cbn in E. subst k.
  apply filter_In in Hin. destruct Hin as [_ Hin]. cbn in Hin.
  now rewrite Z.eqb_refl in Hin.
Qed.

(** X6. Inserting a key that a valid treap does not have and removing it
    again gives back the content of the treap. *)
Theorem remove_insert_absent (null : Tval) (this : PersistTreap)
    (key : Z) (val : Tval) (prio prio' : Z) :
  valid_treap this -> ~ In key (treap_keys this) ->
  entries (remove null (insert this key val prio) key prio') = entries this.
Proof.
  intros V Hk.
  rewrite (remove_entries_eq _ _ _ _ (insert_valid _ key val prio V)).
  rewrite (insert_entries_eq _ _ _ _ V).
  destruct V as [B _]. unfold entries, treap_keys in *.
  destruct (split_rec_filter (root this) key B) as [<- <-].
  pose proof (split_rec_bounds (root this) key B) as (L1 & L2).
  rewrite filter_app. cbn [filter fst]. rewrite Z.eqb_refl. cbn [negb].
  rewrite filter_ne_below, filter_ne_above by assumption.
  rewrite (split_rec_traverse (root this) key) at 1.
  apply mem_false in Hk. rewrite mem_split_matched in Hk by assumption.
  rewrite split_is_split_rec in Hk.
  destruct (matched (split_rec (root this) key)); [reflexivity|discriminate].
Qed.

(** X7. What was stored under [key] before an [insert] does not matter:
    inserting after removing the key, or after inserting another value for
    it, gives the content of inserting directly. *)
Theorem insert_overwrites (null : Tval) (this : PersistTreap)
    (key : Z) (val val' : Tval) (prio prio' : Z) :
  valid_treap this ->
  entries (insert (remove null this key prio') key val prio) =
    entries (insert this key val prio) /\
  entries (insert (insert this key val' prio') key val prio) =
    entries (insert this key val prio).
Proof.
  intros V. split.
  - rewrite (insert_entries_eq _ _ _ _ (remove_valid null _ key prio' V)).
    rewrite (insert_entries_eq _ _ _ _ V), (remove_entries_eq _ _ _ _ V).
    rewrite !filter_filter_weaker; [reflexivity|..]; intros e He;
      apply negb_true_iff, Z.eqb_neq; apply Z.ltb_lt in He; lia.
  - rewrite (insert_entries_eq _ _ _ _ (insert_valid _ key val' prio' V)).
    rewrite (insert_entries_eq this key val' prio' V).
    rewrite (insert_entries_eq this key val prio V).
    rewrite !filter_app. cbn [filter fst]. rewrite Z.ltb_irrefl.
    rewrite (filter_filter_weaker _ (fun e => fst e <? key)
               (fun e => fst e <? key)) by auto.
    rewrite (filter_filter_weaker _ (fun e => key <? fst e)
               (fun e => key <? fst e)) by auto.
    rewrite (filter_none _ (fun e => fst e <? key)
               (filter (fun e => key <? fst e) _)),
            (filter_none _ (fun e => key <? fst e)
               (filter (fun e => fst e <? key) _)).
    + now rewrite app_nil_r.
    + intros e He. apply filter_In in He. destruct He as [_ He].
      apply Z.ltb_lt in He. apply Z.ltb_ge. lia.
    + intros e He. apply filter_In in He. destruct He as [_ He].
      apply Z.ltb_lt in He. apply Z.ltb_ge. lia.
Qed.

(** ** Traversals as lists in ascending key order *)

(** A list of pairs in strictly ascending key order is determined by its
    members. *)
Lemma sorted_entries_unique (l1 : list (Z * Tval)) : forall l2,
  StronglySorted Z.lt (map fst l1) -> StronglySorted Z.lt (map fst l2) ->
  (forall e, In e l1 <-> In e l2) -> l1 = l2.
Proof.
  induction l1 as [|a l1 IH]; intros [|b l2] S1 S2 Hin.
  - reflexivity.
  - destruct (proj2 (Hin b) (or_introl eq_refl)).
  - destruct (proj1 (Hin a) (or_introl eq_refl)).
  - cbn [map] in S1, S2.
    apply StronglySorted_inv in S1, S2.
    destruct S1 as [S1 F1], S2 as [S2 F2].
    rewrite Forall_forall in F1, F2.
    assert (Fa : forall e, In e l1 -> fst a < fst e)
      by (intros e He; apply F1; now apply in_map).
    assert (Fb : forall e, In e l2 -> fst b < fst e)
      by (intros e He; apply F2; now apply in_map).
    assert (E : a = b).
    { destruct (proj1 (Hin a) (or_introl eq_refl)) as [E|Ha]; [now subst|].
      destruct (proj2 (Hin b) (or_introl eq_refl)) as [E|Hb]; [now subst|].
      apply Fa in Hb. apply Fb in Ha. lia. }
    subst b. f_equal. apply IH; try assumption.
    intros e. split; intros He.
    + destruct (proj1 (Hin e) (or_intror He)) as [E|H]; [|assumption].
      subst e. apply Fa in He. lia.
    + destruct (proj2 (Hin e) (or_intror He)) as [E|H]; [|assumption].
      subst e. apply Fb in He. lia.
Qed.

Lemma merge_entries_keys la lb k :
  In k (map fst (merge_entries la lb)) ->
  In k (map fst la) \/ In k (map fst lb).
Proof.
  funelim (merge_entries la lb); cbn [map In fst] in *; intros Hk; auto.
  all: destruct Hk as [Hk|Hk]; auto.
  all: match goal with IH : forall _, _ -> _ \/ _ |- _ => apply IH in Hk end.
  all: cbn [map In fst] in Hk; tauto.
Qed.

Lemma merge_entries_sorted la lb :
  StronglySorted Z.lt (map fst la) -> StronglySorted Z.lt (map fst lb) ->
  StronglySorted Z.lt (map fst (merge_entries la lb)).
Proof.
  funelim (merge_entries la lb); intros Sa Sb; try assumption.
  all: cbn [map fst] in *.
  all: pose proof (StronglySorted_inv Sa) as [Sa' Fa].
  all: pose proof (StronglySorted_inv Sb) as [Sb' Fb].
  all: rewrite Forall_forall in Fa, Fb.
  all: constructor; [auto|].
  all: apply Forall_forall; intros k Hk; apply merge_entries_keys in Hk.
  - rewrite Z.compare_eq_iff in Heq. subst.
    destruct Hk as [Hk|Hk]; auto.
  - rewrite Z.compare_lt_iff in Heq. cbn [map In fst] in Hk.
    destruct Hk as [Hk|[Hk|Hk]]; auto; try lia.
    apply Fb in Hk. lia.
  - rewrite Z.compare_gt_iff in Heq. cbn [map In fst] in Hk.
    destruct Hk as [[Hk|Hk]|Hk]; auto; try lia.
    apply Fa in Hk. lia.
Qed.

Lemma merge_entries_In la lb :
  StronglySorted Z.lt (map fst la) -> StronglySorted Z.lt (map fst lb) ->
  forall k x,
    In (k, x) (merge_entries la lb) <->
    In (k, x) la \/ (~ In k (map fst la) /\ In (k, x) lb).
Proof.
  funelim (merge_entries la lb); intros Sa Sb k x.
  1: { cbn. tauto. }
  1: { cbn [In map]. tauto. }
  all: cbn [map fst] in *.
  all: pose proof (StronglySorted_inv Sa) as [Sa' Fa].
  all: pose proof (StronglySorted_inv Sb) as [Sb' Fb].
  all: rewrite Forall_forall in Fa, Fb.
  all: assert (Ia : In (k, x) la' -> ka < k)
         by (intros HH; apply Fa; now apply (in_map fst) in HH).
  all: assert (Ib : In (k, x) lb' -> kb < k)
         by (intros HH; apply Fb; now apply (in_map fst) in HH).
  all: cbn [In]; rewrite H by assumption; cbn [In map fst];
         rewrite ?pair_equal_spec.
  - rewrite Z.compare_eq_iff in Heq. subst kb.
    clear H. intuition (subst; auto; try lia).
    all: try (match goal with HH : In _ (map fst _) |- _ =>
                apply Fa in HH end; lia).
  - rewrite Z.compare_lt_iff in Heq.
    clear H. intuition (subst; auto; try lia).
  - rewrite Z.compare_gt_iff in Heq.
    clear H. intuition (subst; auto; try lia).
    all: try (match goal with HH : In _ (map fst _) |- _ =>
                apply Fa in HH end; lia).
    all: right; split; [intros [?|HH]; [lia|apply Fa in HH; lia]|auto].
Qed.

Lemma entries_sorted (t : PersistTreap) :
  valid_treap t -> StronglySorted Z.lt (map fst (entries t)).
Proof. intros [B _]. exact (bst_sorted _ B). Qed.

Lemma union_entries_merge (A B : PersistTreap) :
  valid_treap A -> valid_treap B ->
  entries (treap_union A B) = merge_entries (entries A) (entries B).
Proof.
  intros VA VB.
  pose proof (entries_sorted A VA) as SA.
  pose proof (entries_sorted B VB) as SB.
  destruct VA as [BA HA], VB as [BB HB].
  apply sorted_entries_unique.
  - apply (bst_sorted (union_helper (root A) (root B))).
    now apply union_bst.
  - now apply merge_entries_sorted.
  - intros [k x]. unfold entries, treap_union in *. cbn [root].
    rewrite (union_traverse _ _ BA BB), (merge_entries_In _ _ SA SB).
    now rewrite mem_false.
Qed.

(** ** How the set operations compose *)

(** X8. The traversal of a union of valid treaps is the left-biased merge
    of the two traversals: a function of the two contents alone. *)
Theorem treap_union_merges (A B : PersistTreap) :
  valid_treap A -> valid_treap B ->
  entries (treap_union A B) = merge_entries (entries A) (entries B).
Proof. apply union_entries_merge. Qed.

(** X9. For a valid treap [A]: the union of [A] with itself and the
    intersection of [A] with itself have the content of [A], and the
    difference of [A] with itself is empty. *)
Theorem self_operations (A : PersistTreap) :
  valid_treap A ->
  entries (treap_union A A) = entries A /\
  entries (intersection A A) = entries A /\
  entries (difference A A) = [].
Proof.
  intros V. pose proof V as [B H]. repeat apply conj.
  - apply sorted_entries_unique.
    + apply (bst_sorted (union_helper (root A) (root A))).
      now apply union_bst.
    + now apply entries_sorted.
    + intros [k x]. unfold entries, treap_union. cbn [root].
      rewrite (union_traverse _ _ B B). tauto.
  - unfold entries, intersection. cbn [root].
    rewrite (intersect_traverse _ _ B B). apply filter_all.
    intros [k x] He. now apply In_traverse_mem in He.
  - unfold entries, difference. cbn [root].
    rewrite (difference_traverse _ _ B B). apply filter_none.
    intros [k x] He. apply In_traverse_mem in He. cbn. now rewrite He.
Qed.

(** X10. The content of a union, an intersection or a difference of valid
    treaps depends on the contents of the operands only, not on their
    priorities or shapes. *)
Theorem content_independent_of_shape (A A' B B' : PersistTreap) :
  valid_treap A -> valid_treap A' -> valid_treap B -> valid_treap B' ->
  entries A = entries A' -> entries B = entries B' ->
  entries (treap_union A B) = entries (treap_union A' B') /\
  entries (intersection A B) = entries (intersection A' B') /\
  entries (difference A B) = entries (difference A' B').
Proof.
  intros VA VA' VB VB' EA EB. repeat apply conj.
  - rewrite !union_entries_merge by assumption. now rewrite EA, EB.
  - destruct VA as [BA _], VA' as [BA' _], VB as [BB _], VB' as [BB' _].
    unfold entries, intersection in *. cbn [root].
    rewrite !intersect_traverse by assumption. rewrite EA.
    apply filter_ext. intros e. unfold mem, keys. now rewrite EB.
  - destruct VA as [BA _], VA' as [BA' _], VB as [BB _], VB' as [BB' _].
    unfold entries, difference in *. cbn [root].
    rewrite !difference_traverse by assumption. rewrite EA.
    apply filter_ext. intros e. unfold mem, keys. now rewrite EB.
Qed.

(** X11. For valid treaps, the difference and the intersection of [A] with
    [B] split [A] in two: no key is in both, and their union, in either
    order, has the content of [A]. *)
Theorem difference_intersection_recombine (A B : PersistTreap) :
  valid_treap A -> valid_treap B ->
  (forall k,
     In k (treap_keys (difference A B)) ->
     ~ In k (treap_keys (intersection A B))) /\
  entries (treap_union (difference A B) (intersection A B)) = entries A /\
  entries (treap_union (intersection A B) (difference A B)) = entries A.
Proof.
  intros VA VB. pose proof VA as [BA HA]. pose proof VB as [BB HB].
  assert (VD : valid_treap (difference A B))
    by (split; [now apply difference_bst|now apply difference_heap]).
  assert (VI : valid_treap (intersection A B))
    by (split; [now apply intersect_bst|now apply intersect_heap]).
  assert (ED : forall k x,
            In (k, x) (entries (difference A B)) <->
            In (k, x) (entries A) /\ mem k (root B) = false).
  { intros k x. unfold entries, difference. cbn [root].
    rewrite (difference_traverse _ _ BA BB), filter_In, negb_true_iff.
    reflexivity. }
  assert (EI : forall k x,
            In (k, x) (entries (intersection A B)) <->
            In (k, x) (entries A) /\ mem k (root B) = true).
  { intros k x. unfold entries, intersection. cbn [root].
    rewrite (intersect_traverse _ _ BA BB), filter_In. reflexivity. }
  repeat apply conj.
  - intros k HD HI. unfold treap_keys in HD, HI.
    apply In_keys in HD, HI. destruct HD as [x HD], HI as [y HI].
    apply ED in HD. apply EI in HI. destruct HD, HI. congruence.
  - apply sorted_entries_unique; try now apply entries_sorted.
    + apply entries_sorted.
      split; [apply union_bst|apply union_heap]; apply VD || apply VI.
    + intros [k x]. rewrite union_entries_merge by assumption.
      rewrite merge_entries_In by now apply entries_sorted.
      rewrite ED, EI. destruct (mem k (root B)) eqn:E; [|tauto].
      split; [tauto|]. intros Hin. right. split; [|tauto].
      intros HD. apply in_map_iff in HD. destruct HD as ([k' y] & Ek & HD).
      cbn in Ek. subst k'. apply ED in HD. destruct HD. congruence.
  - apply sorted_entries_unique; try now apply entries_sorted.
    + apply entries_sorted.
      split; [apply union_bst|apply union_heap]; apply VD || apply VI.
    + intros [k x]. rewrite union_entries_merge by assumption.
      rewrite merge_entries_In by now apply entries_sorted.
      rewrite ED, EI. destruct (mem k (root B)) eqn:E; [tauto|].
      split; [tauto|]. intros Hin. right. split; [|tauto].
      intros HI. apply in_map_iff in HI. destruct HI as ([k' y] & Ek & HI).
      cbn in Ek. subst k'. apply EI in HI. destruct HI. congruence.
Qed.

(** ** Debug print *)

Lemma debug_print_helper_length v : forall indent,
  length (debug_print_helper v indent) = size v.
Proof.
  induction v as [|k x p l IHl r IHr]; intros indent; [reflexivity|].
  cbn [debug_print_helper length size]. now rewrite length_app, IHl, IHr.
Qed.

Lemma debug_print_helper_content v : forall indent,
  Permutation
    (map (fun ln => (line_key ln, line_val ln)) (debug_print_helper v indent))
    (traverse v).
Proof.
  induction v as [|k x p l IHl r IHr]; intros indent; [constructor|].
  cbn [debug_print_helper traverse map line_key line_val].
  rewrite map_app. apply Permutation_cons_app.
  apply Permutation_app; [apply IHl|apply IHr].
Qed.

Lemma debug_print_helper_indent v : forall indent ln,
  In ln (debug_print_helper v indent) ->
  indent <= line_indent ln /\ (line_indent ln - indent) mod 4 = 0.
Proof.
  induction v as [|k x p l IHl r IHr]; intros indent ln; [intros []|].
  cbn [debug_print_helper In]. rewrite in_app_iff.
  intros [<-|[H|H]].
  - cbn. rewrite Z.sub_diag. split; [lia|reflexivity].
  - apply IHl in H. destruct H as [H1 H2]. split; [lia|].
    replace (line_indent ln - indent) with (line_indent ln - (indent + 4) + 1 * 4)
      by lia.
    now rewrite Z.mod_add by lia.
  - apply IHr in H. destruct H as [H1 H2]. split; [lia|].
    replace (line_indent ln - indent) with (line_indent ln - (indent + 4) + 1 * 4)
      by lia.
    now rewrite Z.mod_add by lia.
Qed.

Lemma debug_print_helper_prios P v : forall indent ln,
  all_prios P v -> In ln (debug_print_helper v indent) -> P (line_p ln).
Proof.
  induction v as [|k x p l IHl r IHr]; intros indent ln; [intros _ []|].
  cbn [debug_print_helper In all_prios]. rewrite in_app_iff.
  intros (Hp & Al & Ar) [<-|[H|H]]; eauto.
Qed.

(** X12. [debug_print] writes one line per node; the (key, value) pairs of
    its lines are those of the traversal, in another order; and every line
    is indented by a multiple of four columns. *)
Theorem debug_print_shows_content (this : PersistTreap) :
  length (debug_print this) = size (root this) /\
  Permutation
    (map (fun ln => (line_key ln, line_val ln)) (debug_print this))
    (entries this) /\
  (forall ln, In ln (debug_print this) ->
     0 <= line_indent ln /\ line_indent ln mod 4 = 0).
Proof.
  unfold debug_print, entries. repeat apply conj.
  - apply debug_print_helper_length.
  - apply debug_print_helper_content.
  - intros ln H. apply debug_print_helper_indent in H.
    now rewrite Z.sub_0_r in H.
Qed.

(** X13. For a valid treap, the first line of [debug_print] is the root,
    not indented, and its priority is the smallest printed; every other
    line is indented by at least four columns. *)
Theorem debug_print_root_first (this : PersistTreap) first rest :
  valid_treap this -> debug_print this = first :: rest ->
  root_key (root this) = Some (line_key first) /\
  line_indent first = 0 /\
  (forall ln, In ln rest -> line_p first <= line_p ln /\ 4 <= line_indent ln).
Proof.
  intros [B H]. unfold debug_print.
  destruct (root this) as [|k x p l r]; [discriminate|].
  cbn [debug_print_helper]. intros E. injection E as <- <-.
  cbn [root_key line_key line_indent line_p]. repeat apply conj; try reflexivity.
  destruct H as (Pl & Pr & Hl & Hr).
  intros ln Hin. apply in_app_iff in Hin. destruct Hin as [Hin|Hin]; split.
  - exact (debug_print_helper_prios _ l _ ln (heap_all_prios p l Hl Pl) Hin).
  - apply debug_print_helper_indent in Hin. lia.
  - exact (debug_print_helper_prios _ r _ ln (heap_all_prios p r Hr Pr) Hin).
  - apply debug_print_helper_indent in Hin. lia.
Qed.

(** ** Building treaps by the public operations *)

Lemma has_content_empty : has_content empty [].
Proof. unfold has_content, valid_treap, valid. cbn. tauto. Qed.

Lemma has_content_insert t l k x p :
  has_content t l ->
  has_content (insert t k x p)
    (filter (fun e => fst e <? k) l ++ (k, x) :: filter (fun e => k <? fst e) l).
Proof.
  intros [V <-]. split; [now apply insert_valid|now apply insert_entries_eq].
Qed.

Lemma has_content_union A B la lb :
  has_content A la -> has_content B lb ->
  has_content (treap_union A B) (merge_entries la lb).
Proof.
  intros [VA <-] [VB <-]. split; [|now apply union_entries_merge].
  destruct VA, VB. split; [now apply union_bst|now apply union_heap].
Qed.

Lemma has_content_intersection A B la lb :
  has_content A la -> has_content B lb ->
  has_content (intersection A B)
    (filter (fun e => existsb (Z.eqb (fst e)) (map fst lb)) la).
Proof.
  intros [[BA HA] <-] [[BB HB] <-]. split.
  - split; [now apply intersect_bst|now apply intersect_heap].
  - unfold entries, intersection. cbn [root].
    now rewrite intersect_traverse.
Qed.

Lemma has_content_difference A B la lb :
  has_content A la -> has_content B lb ->
  has_content (difference A B)
    (filter (fun e => negb (existsb (Z.eqb (fst e)) (map fst lb))) la).
Proof.
  intros [[BA HA] <-] [[BB HB] <-]. split.
  - split; [now apply difference_bst|now apply difference_heap].
  - unfold entries, difference. cbn [root].
    now rewrite difference_traverse.
Qed.

(** ** Laws of the set operations *)

Lemma union_valid A B :
  valid_treap A -> valid_treap B -> valid_treap (treap_union A B).
Proof.
  intros [BA HA] [BB HB]. split; [now apply union_bst|now apply union_heap].
Qed.

Lemma difference_valid A B :
  valid_treap A -> valid_treap B -> valid_treap (difference A B).
Proof.
  intros [BA HA] [BB HB].
  split; [now apply difference_bst|now apply difference_heap].
Qed.

Lemma union_entries_In A B :
  valid_treap A -> valid_treap B ->
  forall k x,
    In (k, x) (entries (treap_union A B)) <->
    In (k, x) (entries A) \/ (mem k (root A) = false /\ In (k, x) (entries B)).
Proof. intros [BA _] [BB _]. now apply union_traverse. Qed.

Lemma mem_entries k (t : PersistTreap) :
  mem k (root t) = true <-> exists x, In (k, x) (entries t).
Proof. rewrite mem_In. apply In_keys. Qed.

Lemma union_mem A B k :
  valid_treap A -> valid_treap B ->
  mem k (root (treap_union A B)) = mem k (root A) || mem k (root B).
Proof.
  intros VA VB. apply eq_true_iff_eq.
  rewrite orb_true_iff, !mem_entries. split.
  - intros [x Hx]. apply (union_entries_In _ _ VA VB) in Hx.
    destruct Hx as [Hx|[_ Hx]]; [left|right]; now exists x.
  - intros [[x Hx]|[x Hx]].
    + exists x. apply (union_entries_In _ _ VA VB). now left.
    + destruct (mem k (root A)) eqn:E.
      * apply mem_entries in E. destruct E as [y Hy].
        exists y. apply (union_entries_In _ _ VA VB). now left.
      * exists x. apply (union_entries_In _ _ VA VB). now right.
Qed.

Lemma difference_entries_eq A B :
  valid_treap A -> valid_treap B ->
  entries (difference A B) =
  filter (fun e => negb (mem (fst e) (root B))) (entries A).
Proof. intros [BA _] [BB _]. now apply difference_traverse. Qed.

Lemma intersection_entries_eq A B :
  valid_treap A -> valid_treap B ->
  entries (intersection A B) =
  filter (fun e => mem (fst e) (root B)) (entries A).
Proof. intros [BA _] [BB _]. now apply intersect_traverse. Qed.

Lemma filter_twice (A : Type) (f g : A -> bool) (xs : list A) :
  filter f (filter g xs) = filter (fun e => g e && f e) xs.
Proof.
  induction xs as [|a xs IH]; [reflexivity|]. cbn.
  destruct (g a); cbn; [destruct (f a)|]; now rewrite IH.
Qed.

(** A list of keys in strictly ascending order is determined by its
    members. *)
Lemma sorted_keys_unique (l1 : list Z) : forall l2,
  StronglySorted Z.lt l1 -> StronglySorted Z.lt l2 ->
  (forall k, In k l1 <-> In k l2) -> l1 = l2.
Proof.
  induction l1 as [|a l1 IH]; intros [|b l2] S1 S2 M.
  - reflexivity.
  - destruct (proj2 (M b) (or_introl eq_refl)).
  - destruct (proj1 (M a) (or_introl eq_refl)).
  - apply StronglySorted_inv in S1, S2.
    destruct S1 as [S1 F1], S2 as [S2 F2]. rewrite Forall_forall in F1, F2.
    assert (a = b).
    { destruct (proj1 (M a) (or_introl eq_refl)) as [E|Ha]; [now subst|].
      destruct (proj2 (M b) (or_introl eq_refl)) as [E|Hb]; [now subst|].
      apply F1 in Hb. apply F2 in Ha. lia. }
    subst b. f_equal. apply IH; try assumption.
    intros k. split; intros Hk.
    + destruct (proj1 (M k) (or_intror Hk)) as [E|H]; [|assumption].
      subst. apply F1 in Hk. lia.
    + destruct (proj2 (M k) (or_intror Hk)) as [E|H]; [|assumption].
      subst. apply F2 in Hk. lia.
Qed.

(** X15. Union of valid treaps is associative in content; the two orders
    of a union have the same keys; and they have the same content when the
    operands agree on the value of every key they share. *)
Theorem treap_union_laws (A B C : PersistTreap) :
  valid_treap A -> valid_treap B -> valid_treap C ->
  entries (treap_union (treap_union A B) C) =
    entries (treap_union A (treap_union B C)) /\
  treap_keys (treap_union A B) = treap_keys (treap_union B A) /\
  ((forall k x y, In (k, x) (entries A) -> In (k, y) (entries B) -> x = y) ->
   entries (treap_union A B) = entries (treap_union B A)).
Proof.
  intros VA VB VC.
  pose proof (union_valid _ _ VA VB) as VAB.
  pose proof (union_valid _ _ VB VA) as VBA.
  pose proof (union_valid _ _ VB VC) as VBC.
  repeat apply conj.
  - apply sorted_entries_unique;
      try (apply entries_sorted; now apply union_valid).
    intros [k x]. rewrite !union_entries_In by assumption.
    rewrite union_mem by assumption. rewrite orb_false_iff. tauto.
  - apply sorted_keys_unique; try now apply entries_sorted.
    intros k. unfold treap_keys.
    rewrite <- !mem_In, !union_mem by assumption. now rewrite orb_comm.
  - intros Agree. apply sorted_entries_unique; try now apply entries_sorted.
    intros [k x]. rewrite !union_entries_In by assumption.
    split.
    + intros [Ha|[Ea Hb]]; [|now left].
      destruct (mem k (root B)) eqn:EB; [|now right].
      apply mem_entries in EB. destruct EB as [y Hb].
      rewrite (Agree _ _ _ Ha Hb). now left.
    + intros [Hb|[Eb Ha]]; [|now left].
      destruct (mem k (root A)) eqn:EA; [|now right].
      apply mem_entries in EA. destruct EA as [y Ha].
      rewrite <- (Agree _ _ _ Ha Hb). now left.
Qed.

(** X16. Difference and intersection of valid treaps, in content: taking
    away a union is taking away one operand after the other; and the
    intersection of [A] with [B] is what is left of [A] when the difference
    of [A] and [B] is taken away. *)
Theorem difference_laws (A B C : PersistTreap) :
  valid_treap A -> valid_treap B -> valid_treap C ->
  entries (difference A (treap_union B C)) =
    entries (difference (difference A B) C) /\
  entries (intersection A B) = entries (difference A (difference A B)).
Proof.
  intros VA VB VC.
  pose proof (union_valid _ _ VB VC) as VBC.
  pose proof (difference_valid _ _ VA VB) as VD.
  split.
  - rewrite !difference_entries_eq by assumption. rewrite filter_twice.
    apply filter_ext. intros e. rewrite union_mem by assumption.
    now rewrite negb_orb.
  - rewrite intersection_entries_eq, (difference_entries_eq A) by assumption.
    apply filter_ext_in. intros [k x] He. cbn [fst].
    destruct (mem k (root B)) eqn:EB.
    + symmetry. apply negb_true_iff, not_true_is_false. intros E.
      apply mem_entries in E. destruct E as [y Hy].
      rewrite difference_entries_eq in Hy by assumption.
      apply filter_In in Hy. destruct Hy as [_ Hy]. cbn in Hy.
      now rewrite EB in Hy.
    + symmetry. apply negb_false_iff, mem_entries. exists x.
      rewrite difference_entries_eq by assumption.
      apply filter_In. split; [assumption|]. cbn. now rewrite EB.
Qed.

End PersistTreap.

Arguments Node : clear implicits.
Arguments Clone : clear implicits.
Arguments PersistTreap : clear implicits.

(** * The properties at concrete treaps *)

(** Two small dictionaries with [int] values, as the driver builds them:
    keys 1, 2, 3 with value ten times the key, and keys 2, 4, 6 with value a
    thousand times the key. *)
Definition treapA : PersistTreap Z :=
  mkTreap (Nd 2 20 3 (Nd 1 10 5 Nil Nil) (Nd 3 30 4 Nil Nil)).

Definition treapB : PersistTreap Z :=
  mkTreap (Nd 4 4000 1 (Nd 2 2000 7 Nil Nil) (Nd 6 6000 2 Nil Nil)).

(** [treapA] is what three insertions build when [rand()] returns 5, 3, 4. *)
Example treapA_inserted :
  insert (insert (insert empty 1 10 5) 2 20 3) 3 30 4 = treapA.
Proof. vm_compute. reflexivity. Qed.

Example treapB_inserted :
  insert (insert (insert empty 2 2000 7) 4 4000 1) 6 6000 2 = treapB.
Proof. vm_compute. reflexivity. Qed.

Example treap_union_entries :
  entries (treap_union treapA treapB) =
  [(1, 10); (2, 20); (3, 30); (4, 4000); (6, 6000)].
Proof. vm_compute. reflexivity. Qed.

Example intersection_entries :
  entries (intersection treapA treapB) = [(2, 20)].
Proof. vm_compute. reflexivity. Qed.

Example difference_entries :
  entries (difference treapA treapB) = [(1, 10); (3, 30)].
Proof. vm_compute. reflexivity. Qed.

Example remove_entries :
  entries (remove 0 treapA 2 9) = [(1, 10); (3, 30)].
Proof. vm_compute. reflexivity. Qed.

Example split_loop_at_3 :
  split_loop (root (treap_union treapA treapB)) 3 =
  (Nd 2 20 3 (Nd 1 10 5 Nil Nil) Nil,
   Nd 4 4000 1 Nil (Nd 6 6000 2 Nil Nil),
   Nd 3 30 4 Nil Nil).
Proof. vm_compute. reflexivity. Qed.

Lemma treapA_valid : valid_treap treapA.
Proof. unfold valid_treap, valid. cbn. intuition lia. Defined.

Lemma treapB_valid : valid_treap treapB.
Proof. unfold valid_treap, valid. cbn. intuition lia. Defined.

Lemma treap_union_semantics_witness :
  valid_treap treapA /\ valid_treap treapB /\
  forall k x,
    In (k, x) (entries (treap_union treapA treapB)) <->
    In (k, x) (entries treapA) \/
    (~ In k (treap_keys treapA) /\ In (k, x) (entries treapB)).
Proof.
  split; [exact treapA_valid|]. split; [exact treapB_valid|].
  apply (treap_union_semantics treapA treapB treapA_valid treapB_valid).
Defined.

Lemma difference_semantics_witness :
  valid_treap treapA /\ valid_treap treapB /\
  entries (difference treapA treapB) =
    filter (fun e => negb (mem (fst e) (root treapB))) (entries treapA).
Proof.
  split; [exact treapA_valid|]. split; [exact treapB_valid|].
  apply (difference_semantics treapA treapB treapA_valid treapB_valid).
Defined.

Lemma intersection_semantics_witness :
  valid_treap treapA /\ valid_treap treapB /\
  entries (intersection treapA treapB) =
    filter (fun e => mem (fst e) (root treapB)) (entries treapA).
Proof.
  split; [exact treapA_valid|]. split; [exact treapB_valid|].
  apply (intersection_semantics treapA treapB treapA_valid treapB_valid).
Defined.

(** C4 as first stated fails for [join]: on two valid treaps whose keys are
    the wrong way round, the key 3 ends up to the right of the key 5. *)
Lemma join_unordered_operands_invalid :
  valid (Nd 5 0 1 Nil Nil : Node Z) /\ valid (Nd 3 0 2 Nil Nil : Node Z) /\
  ~ valid (join (Nd 5 0 1 Nil Nil : Node Z) (Nd 3 0 2 Nil Nil)).
Proof.
  assert (E : join (Nd 5 0 1 Nil Nil : Node Z) (Nd 3 0 2 Nil Nil) =
              Nd 5 0 1 Nil (Nd 3 0 2 Nil Nil)) by reflexivity.
  rewrite E. unfold valid. cbn. intuition lia.
Qed.

Lemma invariant_preservation_witness :
  valid (root treapA) /\ valid (Nd 6 6000 2 Nil Nil : Node Z) /\
  keys_before (root treapA) (Nd 6 6000 2 Nil Nil) /\
  valid (join (root treapA) (Nd 6 6000 2 Nil Nil)) /\
  valid_treap (difference treapA treapB).
Proof.
  assert (V : valid (Nd 6 6000 2 Nil Nil : Node Z))
    by (unfold valid; cbn; intuition lia).
  assert (K : keys_before (root treapA) (Nd 6 6000 2 Nil Nil : Node Z))
    by (unfold keys_before; cbn; intuition lia).
  destruct (@invariant_preservation Z) as (_ & Hjoin & _ & _ & Hdiff & _).
  split; [exact treapA_valid|]. split; [exact V|]. split; [exact K|]. split.
  - apply (Hjoin _ _ treapA_valid V K).
  - apply (Hdiff _ _ treapA_valid treapB_valid).
Defined.

Lemma split_contract_witness :
  valid (root treapB) /\
  traverse (less (split (root treapB) 4)) =
    filter (fun e => fst e <? 4) (traverse (root treapB)).
Proof.
  split; [exact treapB_valid|].
  apply (split_contract (root treapB) 4 treapB_valid).
Defined.

Lemma remove_absent_witness :
  valid_treap treapA /\ ~ In 7 (treap_keys treapA) /\
  remove 0 treapA 7 9 = treapA.
Proof.
  assert (H : ~ In 7 (treap_keys treapA)) by (cbn; intuition lia).
  split; [exact treapA_valid|]. split; [exact H|].
  apply (remove_absent 0 treapA 7 9 treapA_valid H).
Defined.

Lemma remove_placeholder_discarded_witness :
  same_keys (root treapB)
            (Nd 4 0 8 (Nd 2 0 9 Nil Nil) (Nd 6 0 1 Nil Nil) : Node Z) /\
  difference treapA treapB =
  difference treapA
    (mkTreap (Nd 4 0 8 (Nd 2 0 9 Nil Nil) (Nd 6 0 1 Nil Nil))).
Proof.
  assert (S : same_keys (root treapB)
                (Nd 4 0 8 (Nd 2 0 9 Nil Nil) (Nd 6 0 1 Nil Nil) : Node Z))
    by (cbn; tauto).
  split; [exact S|].
  apply (proj2 (@remove_placeholder_discarded Z) treapA treapB
           (mkTreap (Nd 4 0 8 (Nd 2 0 9 Nil Nil) (Nd 6 0 1 Nil Nil))) S).
Defined.

Lemma set_operations_terminate_witness :
  (size (root treapA) + size (root treapB) < 7)%nat /\
  union_fuel 7 (root treapA) (root treapB) =
    Some (union_helper (root treapA) (root treapB)).
Proof.
  assert (H : (size (root treapA) + size (root treapB) < 7)%nat)
    by (cbn; lia).
  split; [exact H|].
  apply (proj1 (proj2 (proj2 (@set_operations_terminate Z))) 7%nat _ _ H).
Defined.

Lemma equal_priority_tie_break_witness :
  (Nd 1 10 5 Nil Nil : Node Z) <> Nil /\ (Nd 2 20 5 Nil Nil : Node Z) <> Nil /\
  root_prio (Nd 1 10 5 Nil Nil : Node Z) = root_prio (Nd 2 20 5 Nil Nil : Node Z) /\
  root_key (join (Nd 1 10 5 Nil Nil : Node Z) (Nd 2 20 5 Nil Nil)) = Some 2 /\
  root_key (union_helper (Nd 1 10 5 Nil Nil : Node Z) (Nd 2 20 5 Nil Nil)) =
    Some 2.
Proof.
  assert (H1 : (Nd 1 10 5 Nil Nil : Node Z) <> Nil) by discriminate.
  assert (H2 : (Nd 2 20 5 Nil Nil : Node Z) <> Nil) by discriminate.
  split; [exact H1|]. split; [exact H2|]. split; [reflexivity|].
  apply (equal_priority_tie_break _ _ H1 H2 eq_refl).
Defined.

(** * The driver *)

(** [for (int i = start; i < stop; i += step) body]: at most [fuel] rounds. *)
Fixpoint for_loop {S : Type} (fuel : nat) (i stop step : Z)
    (body : Z -> S -> S) (s : S) : S :=
  match fuel with
  | O => s
  | Datatypes.S fuel =>
      if i <? stop then for_loop fuel (i + step) stop step body (body i s)
      else s
  end.

(** One [insert] of the driver.  The state is the number of calls made to
    [rand()] so far and the treap; [rand n] is what the call after [n] calls
    returns. *)
Definition insert_next (rand : nat -> Z) (key val : Z)
    (s : nat * PersistTreap Z) : nat * PersistTreap Z :=
  (S (fst s), insert (snd s) key val (rand (fst s))).

(** The five treaps of [main]: keys 0 to 9 with ten times the key; the even
    keys below 30 with a thousand times the key; their union, intersection
    and difference. *)
Definition main_treap1 (rand : nat -> Z) : nat * PersistTreap Z :=
  for_loop 30 0 10 1 (fun i => insert_next rand i (i * 10)) (0%nat, empty).

Definition main_treap2 (rand : nat -> Z) : nat * PersistTreap Z :=
  for_loop 30 0 30 2 (fun i => insert_next rand i (i * 1000))
    (fst (main_treap1 rand), empty).

Definition main_treap3 (rand : nat -> Z) : PersistTreap Z :=
  treap_union (snd (main_treap1 rand)) (snd (main_treap2 rand)).

Definition main_treap4 (rand : nat -> Z) : PersistTreap Z :=
  intersection (snd (main_treap1 rand)) (snd (main_treap2 rand)).

Definition main_treap5 (rand : nat -> Z) : PersistTreap Z :=
  difference (snd (main_treap1 rand)) (snd (main_treap2 rand)).

Lemma main_treap1_content rand :
  has_content (snd (main_treap1 rand))
    [(0, 0); (1, 10); (2, 20); (3, 30); (4, 40); (5, 50); (6, 60); (7, 70);
     (8, 80); (9, 90)].
Proof.
  assert (H : exists l, has_content (snd (main_treap1 rand)) l /\
                l = [(0, 0); (1, 10); (2, 20); (3, 30); (4, 40); (5, 50);
                     (6, 60); (7, 70); (8, 80); (9, 90)]).
  { eexists. split.
    - cbv -[insert has_content]. repeat eapply has_content_insert.
      apply has_content_empty.
    - vm_compute. reflexivity. }
  destruct H as (l & H & ->). exact H.
Qed.

Lemma main_treap2_content rand :
  has_content (snd (main_treap2 rand))
    [(0, 0); (2, 2000); (4, 4000); (6, 6000); (8, 8000); (10, 10000);
     (12, 12000); (14, 14000); (16, 16000); (18, 18000); (20, 20000);
     (22, 22000); (24, 24000); (26, 26000); (28, 28000)].
Proof.
  assert (H : exists l, has_content (snd (main_treap2 rand)) l /\
                l = [(0, 0); (2, 2000); (4, 4000); (6, 6000); (8, 8000);
                     (10, 10000); (12, 12000); (14, 14000); (16, 16000);
                     (18, 18000); (20, 20000); (22, 22000); (24, 24000);
                     (26, 26000); (28, 28000)]).
  { eexists. split.
    - cbv -[insert has_content]. repeat eapply has_content_insert.
      apply has_content_empty.
    - vm_compute. reflexivity. }
  destruct H as (l & H & ->). exact H.
Qed.

(** X14. Whatever [rand()] returns, the treaps that [main] builds and
    prints are valid and hold: keys 0 to 9 with ten times the key; the even
    keys up to 28 with a thousand times the key; for their union the first
    treap's pairs and the second's pairs of the keys 10 to 28; for their
    intersection the first treap's pairs of the even keys; for their
    difference the first treap's pairs of the odd keys. *)
Theorem main_treaps (rand : nat -> Z) :
  has_content (snd (main_treap1 rand))
    [(0, 0); (1, 10); (2, 20); (3, 30); (4, 40); (5, 50); (6, 60); (7, 70);
     (8, 80); (9, 90)] /\
  has_content (snd (main_treap2 rand))
    [(0, 0); (2, 2000); (4, 4000); (6, 6000); (8, 8000); (10, 10000);
     (12, 12000); (14, 14000); (16, 16000); (18, 18000); (20, 20000);
     (22, 22000); (24, 24000); (26, 26000); (28, 28000)] /\
  has_content (main_treap3 rand)
    [(0, 0); (1, 10); (2, 20); (3, 30); (4, 40); (5, 50); (6, 60); (7, 70);
     (8, 80); (9, 90); (10, 10000); (12, 12000); (14, 14000); (16, 16000);
     (18, 18000); (20, 20000); (22, 22000); (24, 24000); (26, 26000);
     (28, 28000)] /\
  has_content (main_treap4 rand)
    [(0, 0); (2, 20); (4, 40); (6, 60); (8, 80)] /\
  has_content (main_treap5 rand)
    [(1, 10); (3, 30); (5, 50); (7, 70); (9, 90)].
Proof.
  pose proof (main_treap1_content rand) as H1.
  pose proof (main_treap2_content rand) as H2.
  split; [exact H1|]. split; [exact H2|]. split; [|split].
  - pose proof (has_content_union _ _ _ _ H1 H2) as H.
    set (l := merge_entries _ _) in H. vm_compute in l. exact H.
  - pose proof (has_content_intersection _ _ _ _ H1 H2) as H.
    set (l := filter _ _) in H. vm_compute in l. exact H.
  - pose proof (has_content_difference _ _ _ _ H1 H2) as H.
    set (l := filter _ _) in H. vm_compute in l. exact H.
Qed.

(** * The further properties at concrete treaps *)

Arguments Line : clear implicits.

(** A third dictionary, and [treapA]'s content in another shape. *)
Definition treapC : PersistTreap Z :=
  mkTreap (Nd 3 300 6 Nil (Nd 5 500 8 Nil Nil)).

Definition treapA_chain : PersistTreap Z :=
  mkTreap (Nd 1 10 1 Nil (Nd 2 20 2 Nil (Nd 3 30 3 Nil Nil))).

Lemma treapC_valid : valid_treap treapC.
Proof. unfold valid_treap, valid. cbn. intuition lia. Defined.

Lemma treapA_chain_valid : valid_treap treapA_chain.
Proof. unfold valid_treap, valid. cbn. intuition lia. Defined.

Example debug_print_treapA :
  debug_print treapA =
  [mkLine 0 2 3 20; mkLine 4 1 5 10; mkLine 4 3 4 30].
Proof. reflexivity. Qed.

Lemma join_split_removes_witness :
  valid (root treapA) /\
  traverse (join (less (split (root treapA) 2)) (greater (split (root treapA) 2))) =
    filter (fun e => negb (fst e =? 2)) (traverse (root treapA)).
Proof.
  split; [exact treapA_valid|].
  apply (join_split_removes (root treapA) 2 treapA_valid).
Defined.

Lemma insert_sets_key_witness :
  valid_treap treapA /\
  entries (insert treapA 2 21 9) =
    filter (fun e => fst e <? 2) (entries treapA) ++
    (2, 21) :: filter (fun e => 2 <? fst e) (entries treapA).
Proof.
  split; [exact treapA_valid|].
  apply (insert_sets_key treapA 2 21 9 treapA_valid).
Defined.

Lemma remove_deletes_key_witness :
  valid_treap treapA /\
  entries (remove 0 treapA 2 9) =
    filter (fun e => negb (fst e =? 2)) (entries treapA).
Proof.
  split; [exact treapA_valid|].
  apply (remove_deletes_key 0 treapA 2 9 treapA_valid).
Defined.

Lemma remove_insert_absent_witness :
  valid_treap treapA /\ ~ In 7 (treap_keys treapA) /\
  entries (remove 0 (insert treapA 7 70 1) 7 9) = entries treapA.
Proof.
  assert (H : ~ In 7 (treap_keys treapA)) by (cbn; intuition lia).
  split; [exact treapA_valid|]. split; [exact H|].
  apply (remove_insert_absent 0 treapA 7 70 1 9 treapA_valid H).
Defined.

Lemma insert_overwrites_witness :
  valid_treap treapA /\
  entries (insert (insert treapA 2 21 8) 2 22 9) =
    entries (insert treapA 2 22 9).
Proof.
  split; [exact treapA_valid|].
  apply (insert_overwrites 0 treapA 2 22 21 9 8 treapA_valid).
Defined.

Lemma treap_union_merges_witness :
  valid_treap treapA /\ valid_treap treapB /\
  entries (treap_union treapA treapB) =
    merge_entries (entries treapA) (entries treapB).
Proof.
  split; [exact treapA_valid|]. split; [exact treapB_valid|].
  apply (treap_union_merges treapA treapB treapA_valid treapB_valid).
Defined.

Lemma self_operations_witness :
  valid_treap treapA /\
  entries (treap_union treapA treapA) = entries treapA /\
  entries (intersection treapA treapA) = entries treapA /\
  entries (difference treapA treapA) = [].
Proof.
  split; [exact treapA_valid|].
  apply (self_operations treapA treapA_valid).
Defined.

Lemma content_independent_of_shape_witness :
  valid_treap treapA /\ valid_treap treapA_chain /\ valid_treap treapB /\
  entries treapA = entries treapA_chain /\
  entries (treap_union treapA treapB) =
    entries (treap_union treapA_chain treapB).
Proof.
  split; [exact treapA_valid|]. split; [exact treapA_chain_valid|].
  split; [exact treapB_valid|]. split; [reflexivity|].
  apply (content_independent_of_shape treapA treapA_chain treapB treapB
           treapA_valid treapA_chain_valid treapB_valid treapB_valid
           eq_refl eq_refl).
Defined.

Lemma difference_intersection_recombine_witness :
  valid_treap treapA /\ valid_treap treapB /\
  entries (treap_union (difference treapA treapB) (intersection treapA treapB)) =
    entries treapA.
Proof.
  split; [exact treapA_valid|]. split; [exact treapB_valid|].
  apply (difference_intersection_recombine treapA treapB
           treapA_valid treapB_valid).
Defined.

Lemma debug_print_root_first_witness :
  valid_treap treapA /\
  debug_print treapA = mkLine 0 2 3 20 :: [mkLine 4 1 5 10; mkLine 4 3 4 30] /\
  root_key (root treapA) = Some 2.
Proof.
  split; [exact treapA_valid|]. split; [reflexivity|].
  apply (debug_print_root_first treapA (mkLine 0 2 3 20)
           [mkLine 4 1 5 10; mkLine 4 3 4 30] treapA_valid eq_refl).
Defined.

Lemma treap_union_laws_witness :
  valid_treap treapA /\ valid_treap treapB /\ valid_treap treapC /\
  entries (treap_union (treap_union treapA treapB) treapC) =
    entries (treap_union treapA (treap_union treapB treapC)).
Proof.
  split; [exact treapA_valid|]. split; [exact treapB_valid|].
  split; [exact treapC_valid|].
  apply (treap_union_laws treapA treapB treapC
           treapA_valid treapB_valid treapC_valid).
Defined.

Lemma difference_laws_witness :
  valid_treap treapA /\ valid_treap treapB /\ valid_treap treapC /\
  entries (difference treapA (treap_union treapB treapC)) =
    entries (difference (difference treapA treapB) treapC).
Proof.
  split; [exact treapA_valid|]. split; [exact treapB_valid|].
  split; [exact treapC_valid|].
  apply (difference_laws treapA treapB treapC
           treapA_valid treapB_valid treapC_valid).
Defined.
